(** * Collapsed Gibbs sampler for LDA (meta, src/topics/lda_gibbs.cpp)

    A shallow embedding of [lda_gibbs]: the three sparse count tables,
    the per-occurrence topic assignment, the sampling kernel, the sweep
    ([perform_iteration]), the driver ([run]) and the progress
    log-likelihood ([corpus_likelihood]).

    - [double] values are IEEE binary64 numbers: Rocq's primitive floats.
    - [std::unordered_map] tables are [gmap]s; [operator[]] creates a
      value-initialised entry, [at] throws [std::out_of_range] on a
      missing key (modelled as [None] in the [option] monad).
    - [std::lgamma], the random engine and [std::discrete_distribution]
      are library code: they are the parameters of Section [Sampler]. *)

From Stdlib Require Import ZArith NArith List Floats Lia.
From stdpp Require Import base option list fin_maps gmap.

Local Open Scope N_scope.
Set Default Proof Using "Type".

(** ** Identifiers and the forward index *)

Abbreviation topic_id := N (only parsing).
Abbreviation term_id := N (only parsing).
Abbreviation doc_id := N (only parsing).

(** Modelled from the spec: [index::forward_index], of which only the
    calls made by lda_gibbs.cpp are at hand: the capability set of
    section 4.1.  [search_primary d] stands for
    [idx_->search_primary(d)->counts()], the (term, frequency) postings
    of document [d] in the order the index yields them; [num_terms] is
    the vocabulary size. *)
Record forward_index : Type := {
  docs : list doc_id;
  search_primary : doc_id -> list (term_id * N);
  doc_size : doc_id -> N;
  num_docs : N;
  num_terms : N
}.

(** ** Doubles *)

(** Conversion of an unsigned integer to [double] (round to nearest). *)
Definition double_of_N (n : N) : float :=
  SF2Prim (binary_normalize prec emax (Z.of_N n) 0 false).

(** [uint64_t] arithmetic of the per-document occurrence counter. *)
Definition uint64_max : N := 2 ^ 64.
Definition wrap64 (n : N) : N := n mod uint64_max.

(** ** Loops in the error monad *)

(** A range-for loop whose body may throw. *)
Fixpoint for_each {A S : Type} (body : A -> S -> option S)
    (l : list A) (s : S) : option S :=
  match l with
  | [] => Some s
  | x :: l' => match body x s with
               | Some s' => for_each body l' s'
               | None => None
               end
  end.

(** ** Sparse count tables *)

(** [m[k] += 1] on an [unordered_map<_, count>]: the entry is created
    with value 0 when absent. *)
Definition bump (k : N) (m : gmap N N) : gmap N N :=
  <[k := default 0 (m !! k) + 1]> m.

(** [m[k1][k2] += 1] on a nested map: both levels are created on demand. *)
Definition bump2 (k1 k2 : N) (m : gmap N (gmap N N)) : gmap N (gmap N N) :=
  <[k1 := bump k2 (default ∅ (m !! k1))]> m.

(** [auto& c = m.at(k); if (c == 1) m.erase(k); else c -= 1;] *)
Definition unbump (k : N) (m : gmap N N) : option (gmap N N) :=
  match m !! k with
  | None => None
  | Some c => Some (if c =? 1 then delete k m else <[k := c - 1]> m)
  end.

(** The same on [m.at(k1).at(k2)]; the outer key is never erased. *)
Definition unbump2 (k1 k2 : N) (m : gmap N (gmap N N))
    : option (gmap N (gmap N N)) :=
  match m !! k1 with
  | None => None
  | Some inner => match unbump k2 inner with
                  | None => None
                  | Some inner' => Some (<[k1 := inner']> m)
                  end
  end.

(** Stored value of [m[k1][k2]], 0 when a key is absent (read only). *)
Definition peek (k : N) (m : gmap N N) : N := default 0 (m !! k).
Definition peek2 (k1 k2 : N) (m : gmap N (gmap N N)) : N :=
  match m !! k1 with
  | None => 0
  | Some inner => peek k2 inner
  end.

(** Sum of the stored values of a table. *)
Definition table_sum (m : gmap N N) : N :=
  map_fold (fun _ c acc => c + acc) 0 m.

(** No stored entry is zero. *)
Definition nonzero1 (m : gmap N N) : Prop :=
  forall k, m !! k <> Some 0.
Definition nonzero2 (m : gmap N (gmap N N)) : Prop :=
  forall k inner, m !! k = Some inner -> nonzero1 inner.

(** ** The contract of the forward index (section 4.1) *)

Definition sum_N (l : list N) : N := fold_right N.add 0 l.

(** Sum of the frequencies of the postings of [d]. *)
Definition posting_total (idx : forward_index) (d : doc_id) : N :=
  sum_N (map snd (search_primary idx d)).

(** Total token count of the corpus: the sum of [doc_size] over [docs()]. *)
Definition corpus_size (idx : forward_index) : N :=
  sum_N (map (doc_size idx) (docs idx)).

(** Each document is listed once, and [doc_size], a [uint64_t], is the
    sum of the frequencies of the document's postings. *)
Definition index_ok (idx : forward_index) : Prop :=
  NoDup (docs idx)
  /\ Forall (fun d => doc_size idx d = posting_total idx d
                      /\ doc_size idx d < uint64_max) (docs idx).

Section Sampler.

(** The random engine [rng_], its seeding from an integer, the draw of
    [std::discrete_distribution<uint64_t>] from a weight vector, and
    [std::lgamma]. *)
Variable rng_t : Type.
Variable rng_seed : N -> rng_t.
Variable discrete_distribution : list float -> rng_t -> N * rng_t.
Variable lgamma : float -> float.

(** ** Sampler state *)

(** Modelled from the spec: the member declarations of [lda_gibbs] and
    of its base [lda_model] (lda_gibbs.h and lda_model.h are not among
    the sources).  The members are those lda_gibbs.cpp uses; counts are
    natural numbers, and [doc_word_topic_] maps a document to a map
    from occurrence number to topic, as the accesses
    [doc_word_topic_[i][n]] on a new sampler and the data model of the
    specification have it. *)
Record lda_gibbs : Type := {
  idx_ : forward_index;
  num_topics_ : N;
  num_words_ : N;
  alpha_ : float;
  beta_ : float;
  topic_term_count_ : gmap N (gmap N N);
  doc_topic_count_ : gmap N (gmap N N);
  topic_count_ : gmap N N;
  doc_word_topic_ : gmap N (gmap N N);
  rng_ : rng_t
}.

Definition set_counts (s : lda_gibbs)
    (ttc dtc : gmap N (gmap N N)) (tc : gmap N N) : lda_gibbs :=
  {| idx_ := idx_ s; num_topics_ := num_topics_ s;
     num_words_ := num_words_ s; alpha_ := alpha_ s; beta_ := beta_ s;
     topic_term_count_ := ttc; doc_topic_count_ := dtc;
     topic_count_ := tc;
     doc_word_topic_ := doc_word_topic_ s; rng_ := rng_ s |}.

Definition set_doc_word_topic (s : lda_gibbs)
    (dwt : gmap N (gmap N N)) : lda_gibbs :=
  {| idx_ := idx_ s; num_topics_ := num_topics_ s;
     num_words_ := num_words_ s; alpha_ := alpha_ s; beta_ := beta_ s;
     topic_term_count_ := topic_term_count_ s;
     doc_topic_count_ := doc_topic_count_ s;
     topic_count_ := topic_count_ s;
     doc_word_topic_ := dwt; rng_ := rng_ s |}.

Definition set_rng (s : lda_gibbs) (r : rng_t) : lda_gibbs :=
  {| idx_ := idx_ s; num_topics_ := num_topics_ s;
     num_words_ := num_words_ s; alpha_ := alpha_ s; beta_ := beta_ s;
     topic_term_count_ := topic_term_count_ s;
     doc_topic_count_ := doc_topic_count_ s;
     topic_count_ := topic_count_ s;
     doc_word_topic_ := doc_word_topic_ s; rng_ := r |}.

(** ** Construction *)

(** Modelled from the spec: the constructor of the base class
    [lda_model] (lda_model.cpp is not among the sources).  It records the
    topic count and the vocabulary size of the index; section 7 of the
    specification has construction fail for K = 0, V = 0 or D = 0. *)
Definition lda_model_new (idx : forward_index) (num_topics : N)
    : option (N * N) :=
  if (num_topics =? 0) || (num_terms idx =? 0) || (num_docs idx =? 0)
  then None
  else Some (num_topics, num_terms idx).

(** [lda_gibbs::lda_gibbs(idx, num_topics, alpha, beta)].  [entropy] is
    the value [dev()] of the [std::random_device] local to the
    constructor; it is not an argument of the C++ constructor. *)
Definition lda_gibbs_new (idx : forward_index) (num_topics : N)
    (alpha beta : float) (entropy : N) : option lda_gibbs :=
  match lda_model_new idx num_topics with
  | None => None
  | Some (k, v) =>
      Some {| idx_ := idx; num_topics_ := k; num_words_ := v;
              alpha_ := alpha; beta_ := beta;
              topic_term_count_ := ∅; doc_topic_count_ := ∅;
              topic_count_ := ∅; doc_word_topic_ := ∅;
              rng_ := rng_seed entropy |}
  end.

(** ** Count accessors *)

Definition count_term (term : term_id) (topic : topic_id)
    (s : lda_gibbs) : float :=
  match topic_term_count_ s !! topic with
  | None => 0%float
  | Some inner => match inner !! term with
                  | None => 0%float
                  | Some c => double_of_N c
                  end
  end.

Definition count_topic (topic : topic_id) (s : lda_gibbs) : float :=
  match topic_count_ s !! topic with
  | None => 0%float
  | Some c => double_of_N c
  end.

(** The two-argument overload [count_doc(doc, topic)]. *)
Definition count_doc_topic (doc : doc_id) (topic : topic_id)
    (s : lda_gibbs) : float :=
  match doc_topic_count_ s !! doc with
  | None => 0%float
  | Some inner => match inner !! topic with
                  | None => 0%float
                  | Some c => double_of_N c
                  end
  end.

(** The one-argument overload [count_doc(doc)]. *)
Definition count_doc (doc : doc_id) (s : lda_gibbs) : float :=
  double_of_N (doc_size (idx_ s) doc).

(** ** Probability and sampling kernel *)

Definition compute_term_topic_probability (term : term_id)
    (topic : topic_id) (s : lda_gibbs) : float :=
  ((count_term term topic s + beta_ s)
   / (count_topic topic s + double_of_N (num_words_ s) * beta_ s))%float.

Definition compute_doc_topic_probability (doc : doc_id)
    (topic : topic_id) (s : lda_gibbs) : float :=
  ((count_doc_topic doc topic s + alpha_ s)
   / (count_doc doc s + double_of_N (num_topics_ s) * alpha_ s))%float.

Definition compute_probability (term : term_id) (doc : doc_id)
    (topic : topic_id) (s : lda_gibbs) : float :=
  (compute_term_topic_probability term topic s
   * compute_doc_topic_probability doc topic s)%float.

(** The weight vector of [sample_topic]: [weights(num_topics_)] is
    zero-filled, then [weights[j]] is assigned for j = 0 .. size-1. *)
Definition fill_weights (term : term_id) (doc : doc_id)
    (s : lda_gibbs) : list float :=
  fold_left
    (fun weights j =>
       <[j := compute_probability term doc (N.of_nat j) s]> weights)
    (seq 0 (N.to_nat (num_topics_ s)))
    (replicate (N.to_nat (num_topics_ s)) 0%float).

Definition sample_topic (term : term_id) (doc : doc_id)
    (s : lda_gibbs) : topic_id * lda_gibbs :=
  let weights := fill_weights term doc s in
  let '(t, r) := discrete_distribution weights (rng_ s) in
  (t, set_rng s r).

(** ** Count maintenance *)

Definition increase_counts (topic : topic_id) (term : term_id)
    (doc : doc_id) (s : lda_gibbs) : lda_gibbs :=
  set_counts s
    (bump2 topic term (topic_term_count_ s))
    (bump2 doc topic (doc_topic_count_ s))
    (bump topic (topic_count_ s)).

Definition decrease_counts (topic : topic_id) (term : term_id)
    (doc : doc_id) (s : lda_gibbs) : option lda_gibbs :=
  match unbump2 topic term (topic_term_count_ s) with
  | None => None
  | Some ttc =>
      match unbump2 doc topic (doc_topic_count_ s) with
      | None => None
      | Some dtc =>
          match unbump topic (topic_count_ s) with
          | None => None
          | Some tc => Some (set_counts s ttc dtc tc)
          end
      end
  end.

(** ** The sweep *)

(** [doc_word_topic_[i][n]] as an rvalue: both levels are created
    (topic 0) when absent; the value read and the table afterwards. *)
Definition dwt_index (i : doc_id) (n : N) (s : lda_gibbs)
    : topic_id * lda_gibbs :=
  let inner := default ∅ (doc_word_topic_ s !! i) in
  let v := default 0 (inner !! n) in
  (v, set_doc_word_topic s (<[i := <[n := v]> inner]> (doc_word_topic_ s))).

(** [doc_word_topic_[i][n] = topic]. *)
Definition dwt_assign (i : doc_id) (n : N) (topic : topic_id)
    (s : lda_gibbs) : lda_gibbs :=
  let inner := default ∅ (doc_word_topic_ s !! i) in
  set_doc_word_topic s (<[i := <[n := topic]> inner]> (doc_word_topic_ s)).

(** Body of the innermost loop of [perform_iteration]; the loop state
    is the occurrence counter [n] and the sampler. *)
Definition occurrence_body (init : bool) (i : doc_id) (term : term_id)
    (ns : N * lda_gibbs) : option (N * lda_gibbs) :=
  let '(n, s) := ns in
  let '(old_topic, s0) := dwt_index i n s in
  match (if init then Some s0 else decrease_counts old_topic term i s0) with
  | None => None
  | Some s1 =>
      let '(topic, s2) := sample_topic term i s1 in
      let s3 := dwt_assign i n topic s2 in
      let s4 := increase_counts topic term i s3 in
      Some (wrap64 (n + 1), s4)
  end.

(** [for (uint64_t j = 0; j < freq.second; ++j)] *)
Definition posting_body (init : bool) (i : doc_id) (freq : term_id * N)
    (ns : N * lda_gibbs) : option (N * lda_gibbs) :=
  for_each (fun _ : nat => occurrence_body init i (fst freq))
           (seq 0 (N.to_nat (snd freq))) ns.

(** Body of the loop over [idx_->docs()]: [n] starts at 0. *)
Definition doc_body (init : bool) (i : doc_id) (s : lda_gibbs)
    : option lda_gibbs :=
  match for_each (posting_body init i) (search_primary (idx_ s) i) (0, s) with
  | None => None
  | Some (_, s') => Some s'
  end.

(** [perform_iteration(iter, init)]; [iter] only labels the progress
    bar. *)
Definition perform_iteration (iter : N) (init : bool) (s : lda_gibbs)
    : option lda_gibbs :=
  for_each (doc_body init) (docs (idx_ s)) s.

Definition initialize (s : lda_gibbs) : option lda_gibbs :=
  perform_iteration 0 true s.

(** ** Log-likelihood *)

Definition corpus_likelihood (s : lda_gibbs) : float :=
  let likelihood0 :=
    (double_of_N (num_topics_ s)
     * (lgamma (double_of_N (num_words_ s) * beta_ s)
        - double_of_N (num_words_ s) * lgamma (beta_ s)))%float in
  fold_left
    (fun likelihood j =>
       let likelihood' :=
         fold_left
           (fun likelihood d_id =>
              fold_left
                (fun likelihood (freq : term_id * N) =>
                   (likelihood
                    + double_of_N (snd freq)
                      * lgamma (count_term (fst freq) (N.of_nat j) s
                                + beta_ s))%float)
                (search_primary (idx_ s) d_id) likelihood)
           (docs (idx_ s)) likelihood in
       (likelihood'
        - lgamma (count_topic (N.of_nat j) s
                  + double_of_N (num_words_ s) * beta_ s))%float)
    (seq 0 (N.to_nat (num_topics_ s))) likelihood0.

(** ** The driver *)

(** How the loop of [run] was left: by [break] or by its condition. *)
Inductive run_status : Type := Converged | Exhausted.

(** The outcome of [run]: the exit taken, the sampler, and the
    log-likelihoods reported on the progress log, oldest first. *)
Definition run_result : Type := (run_status * lda_gibbs * list float)%type.

(** The [for (uint64_t i = 0; i < num_iters; ++i)] loop of [run];
    [todo] is [num_iters - i]. *)
Fixpoint run_loop (todo : nat) (i : N) (convergence likelihood : float)
    (s : lda_gibbs) (log : list float) : option run_result :=
  match todo with
  | O => Some (Exhausted, s, log)
  | S todo' =>
      match perform_iteration (i + 1) false s with
      | None => None
      | Some s' =>
          let likelihood_update := corpus_likelihood s' in
          let ratio :=
            abs ((likelihood - likelihood_update) / likelihood)%float in
          if (ratio <=? convergence)%float
          then Some (Converged, s', log ++ [likelihood_update])
          else run_loop todo' (i + 1) convergence likelihood_update s'
                        (log ++ [likelihood_update])
      end
  end.

Definition run (num_iters : N) (convergence : float) (s : lda_gibbs)
    : option run_result :=
  match initialize s with
  | None => None
  | Some s1 =>
      let likelihood := corpus_likelihood s1 in
      run_loop (N.to_nat num_iters) 0 convergence likelihood s1 [likelihood]
  end.

(** * Specification-side notions *)

(** ** Token order *)

(** The terms of document [d], one per occurrence: postings in index
    order, the [c] occurrences of a posting [(w, c)] in a row. *)
Definition doc_terms (idx : forward_index) (d : doc_id) : list term_id :=
  flat_map (fun freq : term_id * N => replicate (N.to_nat (snd freq)) (fst freq))
           (search_primary idx d).

(** A token occurrence: document, document-local index, term. *)
Definition token : Type := (doc_id * N * term_id)%type.

Definition doc_tokens_from (d : doc_id) (p : nat) (ws : list term_id)
    : list token :=
  imap (fun q w => (d, wrap64 (N.of_nat (p + q)), w)) ws.

Definition doc_tokens (idx : forward_index) (d : doc_id) : list token :=
  doc_tokens_from d 0 (doc_terms idx d).

(** All occurrences of the corpus, documents in [docs()] order, each
    with the value the [uint64_t] counter [n] of the sweep has for it. *)
Definition token_order (idx : forward_index) : list token :=
  flat_map (doc_tokens idx) (docs idx).

(** The occurrences as section 3 of the specification numbers them:
    within a document, 0, 1, 2, ... in posting order. *)
Definition occurrences (idx : forward_index) : list token :=
  flat_map (fun d => imap (fun n w => (d, N.of_nat n, w)) (doc_terms idx d))
           (docs idx).

(** ** The steps of section 4.4 *)

(** Plain read of [doc_word_topic[d][n]]. *)
Definition dwt_read (d : doc_id) (n : N) (s : lda_gibbs) : topic_id :=
  default 0 (default ∅ (doc_word_topic_ s !! d) !! n).

(** Iteration k >= 1, one occurrence: steps 1 to 5. *)
Definition resample_token (x : token) (s : lda_gibbs) : option lda_gibbs :=
  let '(d, n, w) := x in
  let old := dwt_read d n s in
  match decrease_counts old w d s with
  | None => None
  | Some s1 =>
      let '(new, s2) := sample_topic w d s1 in
      let s3 := dwt_assign d n new s2 in
      Some (increase_counts new w d s3)
  end.

(** Initialization, one occurrence: draw, record, increment. *)
Definition assign_token (x : token) (s : lda_gibbs) : option lda_gibbs :=
  let '(d, n, w) := x in
  let '(new, s2) := sample_topic w d s in
  let s3 := dwt_assign d n new s2 in
  Some (increase_counts new w d s3).

Definition token_step (init : bool) : token -> lda_gibbs -> option lda_gibbs :=
  if init then assign_token else resample_token.

(** ** Counts as numbers *)

Definition stored_term (s : lda_gibbs) (w : term_id) (t : topic_id) : N :=
  peek2 t w (topic_term_count_ s).
Definition stored_doc (s : lda_gibbs) (d : doc_id) (t : topic_id) : N :=
  peek2 d t (doc_topic_count_ s).
Definition stored_topic (s : lda_gibbs) (t : topic_id) : N :=
  peek t (topic_count_ s).

(** Indicator of a decidable proposition. *)
Definition ind (P : Prop) `{Decision P} : N := if decide P then 1 else 0.

(** Sparsity: no table stores a zero. *)
Definition sparse (s : lda_gibbs) : Prop :=
  nonzero2 (topic_term_count_ s) /\ nonzero2 (doc_topic_count_ s)
  /\ nonzero1 (topic_count_ s).

(** Current assignment of an occurrence, when one is recorded. *)
Definition assigned (s : lda_gibbs) (x : token) : option topic_id :=
  match doc_word_topic_ s !! x.1.1 with
  | None => None
  | Some inner => inner !! x.1.2
  end.

(** Number of occurrences of [l] that satisfy [P]. *)
Fixpoint tally (P : token -> Prop) `{!forall x, Decision (P x)}
    (l : list token) : N :=
  match l with
  | [] => 0
  | x :: l' => ind (P x) + tally P l'
  end.

(** Every counter is at least the number of occurrences currently
    assigned to it. *)
Definition covered (s : lda_gibbs) : Prop :=
  (forall t w, tally (fun x => assigned s x = Some t /\ x.2 = w)
                 (token_order (idx_ s)) <= stored_term s w t)
  /\ (forall d t, tally (fun x => assigned s x = Some t /\ x.1.1 = d)
                    (token_order (idx_ s)) <= stored_doc s d t)
  /\ (forall t, tally (fun x => assigned s x = Some t /\ True)
                  (token_order (idx_ s)) <= stored_topic s t).

(** Every occurrence of the corpus has a recorded assignment. *)
Definition all_assigned (s : lda_gibbs) : Prop :=
  forall x, x ∈ token_order (idx_ s) -> is_Some (assigned s x).

(** Sum over topics of [topic_count]. *)
Definition total_topic_count (s : lda_gibbs) : N :=
  table_sum (topic_count_ s).

(** A sampler as the constructor leaves it. *)
Definition fresh (s : lda_gibbs) : Prop :=
  topic_term_count_ s = ∅ /\ doc_topic_count_ s = ∅
  /\ topic_count_ s = ∅ /\ doc_word_topic_ s = ∅.

(** The invariant of the sampler between sweeps. *)
Definition settled (idx : forward_index) (s : lda_gibbs) : Prop :=
  idx_ s = idx /\ covered s /\ all_assigned s.

(** ** The driver of section 4.4 *)

Definition spec_initialization (s : lda_gibbs) : option lda_gibbs :=
  for_each assign_token (occurrences (idx_ s)) s.

Definition spec_iteration (s : lda_gibbs) : option lda_gibbs :=
  for_each resample_token (occurrences (idx_ s)) s.

(** [ratio = |L_k - L_{k-1}| / |L_{k-1}|]. *)
Definition spec_ratio (L_prev L_k : float) : float :=
  (abs (L_k - L_prev) / abs L_prev)%float.

(** [iterates eps budget s L st s' Ls]: from sampler [s] with last
    likelihood [L], at most [budget] iterations are run; after each one
    the new likelihood is reported and compared with the previous one;
    the run stops as [Converged] at the first ratio within [eps], and as
    [Exhausted] when the budget is used up. *)
Inductive iterates (eps : float)
    : nat -> lda_gibbs -> float -> run_status -> lda_gibbs -> list float -> Prop :=
  | iterates_exhausted s L :
      iterates eps 0 s L Exhausted s []
  | iterates_converged budget s L s' :
      spec_iteration s = Some s' ->
      (spec_ratio L (corpus_likelihood s') <=? eps)%float = true ->
      iterates eps (S budget) s L Converged s' [corpus_likelihood s']
  | iterates_continue budget s L s' st s'' Ls :
      spec_iteration s = Some s' ->
      (spec_ratio L (corpus_likelihood s') <=? eps)%float = false ->
      iterates eps budget s' (corpus_likelihood s') st s'' Ls ->
      iterates eps (S budget) s L st s'' (corpus_likelihood s' :: Ls).

(** Samplers a program can hold: constructed, then run any number of
    times. *)
Inductive reachable : lda_gibbs -> Prop :=
  | reachable_new idx num_topics alpha beta entropy s :
      lda_gibbs_new idx num_topics alpha beta entropy = Some s ->
      reachable s
  | reachable_run s num_iters convergence st s' log :
      reachable s ->
      run num_iters convergence s = Some (st, s', log) ->
      reachable s'.

(** ** Runs side by side *)



(** ** The log-likelihood of section 4.4 *)

(** All postings of the corpus: documents in [docs()] order, the
    postings of a document in [postings()] order. *)
Definition corpus_postings (idx : forward_index) : list (term_id * N) :=
  flat_map (search_primary idx) (docs idx).

(** Running sum: the terms are added to [acc] one by one, in list order. *)
Definition accumulate {A : Type} (term : A -> float) (l : list A)
    (acc : float) : float :=
  fold_left (fun a x => (a + term x)%float) l acc.

(** [K * (lnG(V b) - V lnG(b))], then for t = 0 .. K-1: plus
    [c * lnG(count_term(w,t) + b)] over the postings of the corpus, minus
    [lnG(count_topic(t) + V b)]. *)
Definition spec_likelihood (s : lda_gibbs) : float :=
  let K := double_of_N (num_topics_ s) in
  let V := double_of_N (num_words_ s) in
  fold_left
    (fun acc t =>
       (accumulate
          (fun wc : term_id * N =>
             double_of_N wc.2 * lgamma (count_term wc.1 t s + beta_ s))
          (corpus_postings (idx_ s)) acc
        - lgamma (count_topic t s + V * beta_ s))%float)
    (N.of_nat <$> seq 0 (N.to_nat (num_topics_ s)))
    (K * (lgamma (V * beta_ s) - V * lgamma (beta_ s)))%float.

(** ** Calls on the count tables *)

Inductive count_call : Type :=
  | Increase (topic : topic_id) (term : term_id) (doc : doc_id)
  | Decrease (topic : topic_id) (term : term_id) (doc : doc_id).

Definition count_call_run (c : count_call) (s : lda_gibbs) : option lda_gibbs :=
  match c with
  | Increase t w d => Some (increase_counts t w d s)
  | Decrease t w d => decrease_counts t w d s
  end.

(** * Properties *)

(** Proof steps that search the context ([tauto], [intuition]) must not
    see the library parameters a statement does not mention. *)
Local Ltac forget_library :=
  try clear lgamma; try clear discrete_distribution; try clear rng_seed.

(** ** Single tables *)

Lemma peek_bump (k k' : N) (m : gmap N N) :
  peek k' (bump k m) = peek k' m + (if decide (k' = k) then 1 else 0).
Proof.
  unfold peek, bump. destruct (decide (k' = k)) as [->|Hne].
  - by rewrite lookup_insert_eq.
  - rewrite lookup_insert_ne by done. cbn. lia.
Qed.

Lemma unbump_is_Some (k : N) (m : gmap N N) :
  1 <= peek k m -> is_Some (unbump k m).
Proof.
  unfold peek, unbump. destruct (m !! k) as [c|]; cbn; [eauto | lia].
Qed.

Lemma peek_unbump (k k' : N) (m m' : gmap N N) :
  unbump k m = Some m' ->
  peek k' m' = peek k' m - (if decide (k' = k) then 1 else 0).
Proof.
  unfold unbump, peek. destruct (m !! k) as [c|] eqn:Hk; [|done].
  intros [= <-]. destruct (decide (k' = k)) as [->|Hne].
  - rewrite Hk. destruct (N.eqb_spec c 1) as [->|Hc].
    + by rewrite lookup_delete_eq.
    + by rewrite lookup_insert_eq.
  - destruct (c =? 1).
    + rewrite lookup_delete_ne by done. cbn. lia.
    + rewrite lookup_insert_ne by done. cbn. lia.
Qed.

Lemma nonzero1_empty : nonzero1 ∅.
Proof. intros k. by rewrite lookup_empty. Qed.

Lemma nonzero1_bump (k : N) (m : gmap N N) :
  nonzero1 m -> nonzero1 (bump k m).
Proof.
  intros Hm k'. unfold bump. destruct (decide (k' = k)) as [->|Hne].
  - rewrite lookup_insert_eq. intros [= H]. lia.
  - rewrite lookup_insert_ne by done. apply Hm.
Qed.

Lemma nonzero1_unbump (k : N) (m m' : gmap N N) :
  nonzero1 m -> unbump k m = Some m' -> nonzero1 m'.
Proof.
  intros Hm. unfold unbump. destruct (m !! k) as [c|] eqn:Hk; [|done].
  intros [= <-] k'. destruct (N.eqb_spec c 1) as [->|Hc].
  - destruct (decide (k' = k)) as [->|Hne].
    + by rewrite lookup_delete_eq.
    + rewrite lookup_delete_ne by done. apply Hm.
  - destruct (decide (k' = k)) as [->|Hne].
    + rewrite lookup_insert_eq. intros [= H].
      assert (c = 0) by lia. subst c. by apply (Hm k).
    + rewrite lookup_insert_ne by done. apply Hm.
Qed.

Lemma nonzero1_peek (k : N) (m : gmap N N) :
  nonzero1 m -> is_Some (m !! k) -> 1 <= peek k m.
Proof.
  intros Hm [c Hc]. unfold peek. rewrite Hc. cbn.
  assert (c <> 0) by (intros ->; by apply (Hm k)). lia.
Qed.

Lemma table_sum_empty : table_sum ∅ = 0.
Proof. unfold table_sum. by rewrite map_fold_empty. Qed.

Lemma table_sum_insert_None (k c : N) (m : gmap N N) :
  m !! k = None -> table_sum (<[k := c]> m) = c + table_sum m.
Proof.
  intros Hk. unfold table_sum.
  rewrite map_fold_insert_L; [done | intros; lia | done].
Qed.

Lemma table_sum_delete (k c : N) (m : gmap N N) :
  m !! k = Some c -> table_sum m = c + table_sum (delete k m).
Proof.
  intros Hk. rewrite <- (insert_delete_id m k c Hk) at 1.
  apply table_sum_insert_None, lookup_delete_eq.
Qed.

Lemma table_sum_insert (k c : N) (m : gmap N N) :
  table_sum (<[k := c]> m) + peek k m = c + table_sum m.
Proof.
  unfold peek. destruct (m !! k) as [c0|] eqn:Hk; cbn.
  - rewrite <- insert_delete_eq.
    rewrite table_sum_insert_None by apply lookup_delete_eq.
    rewrite (table_sum_delete k c0 m Hk). lia.
  - rewrite table_sum_insert_None by done. lia.
Qed.

Lemma table_sum_bump (k : N) (m : gmap N N) :
  table_sum (bump k m) = table_sum m + 1.
Proof.
  unfold bump. pose proof (table_sum_insert k (default 0 (m !! k) + 1) m) as H.
  unfold peek in H. lia.
Qed.

Lemma table_sum_unbump (k : N) (m m' : gmap N N) :
  1 <= peek k m -> unbump k m = Some m' -> table_sum m' + 1 = table_sum m.
Proof.
  unfold unbump, peek. destruct (m !! k) as [c|] eqn:Hk; [|done].
  cbn. intros Hc [= <-]. destruct (N.eqb_spec c 1) as [->|Hne].
  - rewrite (table_sum_delete k 1 m Hk). lia.
  - pose proof (table_sum_insert k (c - 1) m) as H.
    unfold peek in H. rewrite Hk in H. cbn in H. lia.
Qed.

Lemma bump_unbump (k : N) (m m' : gmap N N) :
  1 <= peek k m -> unbump k m = Some m' -> bump k m' = m.
Proof.
  unfold unbump, peek, bump. destruct (m !! k) as [c|] eqn:Hk; [|done].
  cbn. intros Hc [= <-]. destruct (N.eqb_spec c 1) as [->|Hne].
  - rewrite lookup_delete_eq. cbn. rewrite insert_delete_eq.
    by apply insert_id.
  - rewrite lookup_insert_eq. cbn. rewrite insert_insert_eq.
    apply insert_id. rewrite Hk. f_equal. lia.
Qed.

(** ** Nested tables *)

Lemma peek2_bump2 (k1 k2 k1' k2' : N) (m : gmap N (gmap N N)) :
  peek2 k1' k2' (bump2 k1 k2 m)
  = peek2 k1' k2' m + (if decide (k1' = k1 /\ k2' = k2) then 1 else 0).
Proof.
  forget_library.
  unfold peek2, bump2. destruct (decide (k1' = k1)) as [->|Hne].
  - rewrite lookup_insert_eq, peek_bump.
    destruct (m !! k1) as [inner|]; cbn;
      destruct (decide (k2' = k2)); destruct (decide (_ /\ _));
      try reflexivity; tauto.
  - rewrite lookup_insert_ne by done.
    destruct (decide (_ /\ _)); [tauto|]. lia.
Qed.

Lemma unbump2_is_Some (k1 k2 : N) (m : gmap N (gmap N N)) :
  1 <= peek2 k1 k2 m -> is_Some (unbump2 k1 k2 m).
Proof.
  unfold peek2, unbump2. destruct (m !! k1) as [inner|]; [|lia].
  intros H. destruct (unbump_is_Some k2 inner H) as [inner' ->]. eauto.
Qed.

Lemma peek2_unbump2 (k1 k2 k1' k2' : N) (m m' : gmap N (gmap N N)) :
  unbump2 k1 k2 m = Some m' ->
  peek2 k1' k2' m'
  = peek2 k1' k2' m - (if decide (k1' = k1 /\ k2' = k2) then 1 else 0).
Proof.
  forget_library.
  unfold unbump2, peek2. destruct (m !! k1) as [inner|] eqn:Hk; [|done].
  destruct (unbump k2 inner) as [inner'|] eqn:Hu; [|done].
  intros [= <-]. destruct (decide (k1' = k1)) as [->|Hne].
  - rewrite lookup_insert_eq, Hk, (peek_unbump _ k2' _ _ Hu).
    destruct (decide (k2' = k2)); destruct (decide (_ /\ _));
      try reflexivity; tauto.
  - rewrite lookup_insert_ne by done.
    destruct (decide (_ /\ _)); [tauto|]. lia.
Qed.

Lemma nonzero2_empty : nonzero2 ∅.
Proof. intros k inner. by rewrite lookup_empty. Qed.

Lemma nonzero2_bump2 (k1 k2 : N) (m : gmap N (gmap N N)) :
  nonzero2 m -> nonzero2 (bump2 k1 k2 m).
Proof.
  intros Hm k inner. unfold bump2. destruct (decide (k = k1)) as [->|Hne].
  - rewrite lookup_insert_eq. intros [= <-]. apply nonzero1_bump.
    destruct (m !! k1) as [i0|] eqn:Hk; cbn; [by eapply Hm | apply nonzero1_empty].
  - rewrite lookup_insert_ne by done. apply Hm.
Qed.

Lemma nonzero2_unbump2 (k1 k2 : N) (m m' : gmap N (gmap N N)) :
  nonzero2 m -> unbump2 k1 k2 m = Some m' -> nonzero2 m'.
Proof.
  intros Hm. unfold unbump2. destruct (m !! k1) as [inner|] eqn:Hk; [|done].
  destruct (unbump k2 inner) as [inner'|] eqn:Hu; [|done].
  intros [= <-] k i. destruct (decide (k = k1)) as [->|Hne].
  - rewrite lookup_insert_eq. intros [= <-].
    eapply nonzero1_unbump; [by eapply Hm | done].
  - rewrite lookup_insert_ne by done. apply Hm.
Qed.

Lemma nonzero2_peek2 (k1 k2 : N) (m : gmap N (gmap N N)) (inner : gmap N N) :
  nonzero2 m -> m !! k1 = Some inner -> is_Some (inner !! k2) ->
  1 <= peek2 k1 k2 m.
Proof.
  intros Hm Hk Hi. unfold peek2. rewrite Hk.
  apply nonzero1_peek; [by eapply Hm | done].
Qed.

Lemma bump2_unbump2 (k1 k2 : N) (m m' : gmap N (gmap N N)) :
  1 <= peek2 k1 k2 m -> unbump2 k1 k2 m = Some m' -> bump2 k1 k2 m' = m.
Proof.
  unfold unbump2, peek2, bump2.
  destruct (m !! k1) as [inner|] eqn:Hk; [|done].
  destruct (unbump k2 inner) as [inner'|] eqn:Hu; [|done].
  intros Hc [= <-]. rewrite lookup_insert_eq. cbn.
  rewrite (bump_unbump k2 inner inner' Hc Hu), insert_insert_eq.
  by apply insert_id.
Qed.

(** ** Loops *)

Lemma for_each_app {A S : Type} (f : A -> S -> option S) (l1 l2 : list A) (s : S) :
  for_each f (l1 ++ l2) s
  = match for_each f l1 s with
    | Some s' => for_each f l2 s'
    | None => None
    end.
Proof.
  revert s. induction l1 as [|x l1 IH]; intros s; cbn; [done|].
  destruct (f x s); [apply IH | done].
Qed.

Lemma for_each_flat_map {A B S : Type} (f : B -> S -> option S)
    (g : A -> list B) (l : list A) (s : S) :
  for_each f (flat_map g l) s = for_each (fun a => for_each f (g a)) l s.
Proof.
  revert s. induction l as [|a l IH]; intros s; cbn; [done|].
  rewrite for_each_app. destruct (for_each f (g a) s); [apply IH | done].
Qed.

Lemma for_each_seq_replicate {B S : Type} (f : B -> S -> option S)
    (b : B) (start c : nat) (s : S) :
  for_each (fun _ : nat => f b) (seq start c) s = for_each f (replicate c b) s.
Proof.
  revert start s. induction c as [|c IH]; intros start s; cbn; [done|].
  destruct (f b s); [apply IH | done].
Qed.

Lemma for_each_ext_in {A S : Type} (f g : A -> S -> option S) (P : S -> Prop)
    (l : list A) (s : S) :
  (forall x s0, P s0 -> f x s0 = g x s0) ->
  (forall x s0 s1, P s0 -> g x s0 = Some s1 -> P s1) ->
  P s -> for_each f l s = for_each g l s.
Proof.
  intros Hfg HP. revert s. induction l as [|x l IH]; intros s Hs; cbn; [done|].
  rewrite (Hfg x s Hs). destruct (g x s) as [s1|] eqn:Hg; [|done].
  apply IH. by eapply HP.
Qed.

Lemma for_each_invariant {A S : Type} (f : A -> S -> option S) (P : S -> Prop)
    (l : list A) (s s' : S) :
  (forall x s0 s1, x ∈ l -> P s0 -> f x s0 = Some s1 -> P s1) ->
  P s -> for_each f l s = Some s' -> P s'.
Proof.
  revert s. induction l as [|x l IH]; intros s Hf Hs; cbn.
  - by intros [= <-].
  - destruct (f x s) as [s1|] eqn:Hx; [|done]. apply IH.
    + intros y s0 s2 Hy. apply Hf. by right.
    + eapply Hf; [by left | done | done].
Qed.

Lemma for_each_total {A S : Type} (f : A -> S -> option S) (P : S -> Prop)
    (l : list A) (s : S) :
  (forall x s0, x ∈ l -> P s0 -> exists s1, f x s0 = Some s1 /\ P s1) ->
  P s -> exists s', for_each f l s = Some s' /\ P s'.
Proof.
  revert s. induction l as [|x l IH]; intros s Hf Hs; cbn; [eauto|].
  destruct (Hf x s) as (s1 & -> & Hs1); [by left | done |].
  apply IH; [|done]. intros y s0 Hy. apply Hf. by right.
Qed.

(** ** The sweep visits the occurrences in token order *)

Lemma decrease_counts_dwt (t w d : N) (s : lda_gibbs) (m : gmap N (gmap N N)) :
  decrease_counts t w d (set_doc_word_topic s m)
  = match decrease_counts t w d s with
    | Some s' => Some (set_doc_word_topic s' m)
    | None => None
    end.
Proof.
  unfold decrease_counts; cbn.
  destruct (unbump2 t w (topic_term_count_ s)); [|done].
  destruct (unbump2 d t (doc_topic_count_ s)); [|done].
  by destruct (unbump t (topic_count_ s)).
Qed.

Lemma sample_topic_dwt (w d : N) (s : lda_gibbs) (m : gmap N (gmap N N)) :
  sample_topic w d (set_doc_word_topic s m)
  = (fst (sample_topic w d s), set_doc_word_topic (snd (sample_topic w d s)) m).
Proof.
  unfold sample_topic.
  change (fill_weights w d (set_doc_word_topic s m)) with (fill_weights w d s).
  cbn. by destruct (discrete_distribution (fill_weights w d s) (rng_ s)).
Qed.

Lemma sample_topic_state (w d : N) (s : lda_gibbs) :
  snd (sample_topic w d s) = set_rng s (rng_ (snd (sample_topic w d s))).
Proof.
  unfold sample_topic.
  by destruct (discrete_distribution (fill_weights w d s) (rng_ s)).
Qed.

Lemma dwt_assign_created (d n t v : N) (s : lda_gibbs) (r : rng_t) :
  dwt_assign d n t
    (set_doc_word_topic (set_rng s r)
       (<[d := <[n := v]> (default ∅ (doc_word_topic_ s !! d))]>
          (doc_word_topic_ s)))
  = dwt_assign d n t (set_rng s r).
Proof.
  unfold dwt_assign, set_doc_word_topic, set_rng; cbn.
  by rewrite lookup_insert_eq, insert_insert_eq; cbn; rewrite insert_insert_eq.
Qed.

Lemma decrease_counts_state (t w d : N) (s s' : lda_gibbs) :
  decrease_counts t w d s = Some s' ->
  s' = set_counts s (topic_term_count_ s') (doc_topic_count_ s') (topic_count_ s').
Proof.
  unfold decrease_counts.
  destruct (unbump2 t w (topic_term_count_ s)); [|done].
  destruct (unbump2 d t (doc_topic_count_ s)); [|done].
  destruct (unbump t (topic_count_ s)); [|done].
  by intros [= <-].
Qed.

(** The loop body is the step of section 4.4 plus the advance of [n]. *)
Lemma occurrence_body_step (init : bool) (i w n : N) (s : lda_gibbs) :
  occurrence_body init i w (n, s)
  = match token_step init (i, n, w) s with
    | Some s' => Some (wrap64 (n + 1), s')
    | None => None
    end.
Proof.
  unfold occurrence_body, dwt_index, token_step.
  destruct init; cbn.
  - rewrite sample_topic_dwt.
    pose proof (sample_topic_state w i s) as E.
    destruct (sample_topic w i s) as [t s2]; cbn in *.
    rewrite E. by rewrite dwt_assign_created.
  - rewrite decrease_counts_dwt. fold (dwt_read i n s).
    destruct (decrease_counts (dwt_read i n s) w i s) as [s1|] eqn:Hd; [|done].
    rewrite sample_topic_dwt.
    pose proof (sample_topic_state w i s1) as E.
    destruct (sample_topic w i s1) as [t s2]; cbn in *.
    rewrite E. rewrite (decrease_counts_state _ _ _ _ _ Hd).
    by rewrite <- (dwt_assign_created i n t (dwt_read i n s)).
Qed.

Lemma wrap64_succ (p : nat) :
  wrap64 (wrap64 (N.of_nat p) + 1) = wrap64 (N.of_nat (S p)).
Proof.
  unfold wrap64. rewrite N.Div0.add_mod_idemp_l. f_equal. lia.
Qed.

Lemma doc_tokens_from_cons (d : N) (p : nat) (w : N) (ws : list N) :
  doc_tokens_from d p (w :: ws)
  = (d, wrap64 (N.of_nat p), w) :: doc_tokens_from d (S p) ws.
Proof.
  unfold doc_tokens_from. cbn. rewrite Nat.add_0_r. f_equal.
  apply imap_ext. intros q x _. cbn. do 3 f_equal. lia.
Qed.

Lemma occurrences_walk (init : bool) (i : N) (ws : list N) (p : nat)
    (s : lda_gibbs) :
  for_each (occurrence_body init i) ws (wrap64 (N.of_nat p), s)
  = match for_each (token_step init) (doc_tokens_from i p ws) s with
    | Some s' => Some (wrap64 (N.of_nat (p + length ws)), s')
    | None => None
    end.
Proof.
  revert p s. induction ws as [|w ws IH]; intros p s.
  - cbn. by rewrite Nat.add_0_r.
  - rewrite doc_tokens_from_cons. cbn [for_each].
    rewrite occurrence_body_step.
    destruct (token_step init (i, wrap64 (N.of_nat p), w) s) as [s'|]; [|done].
    rewrite wrap64_succ, IH. cbn [length].
    by replace (S p + length ws)%nat with (p + S (length ws))%nat by lia.
Qed.

Lemma doc_body_tokens (init : bool) (i : N) (s : lda_gibbs) :
  doc_body init i s = for_each (token_step init) (doc_tokens (idx_ s) i) s.
Proof.
  unfold doc_body, doc_tokens, doc_terms.
  rewrite (for_each_ext_in (posting_body init i)
             (fun freq => for_each (occurrence_body init i)
                            (replicate (N.to_nat (snd freq)) (fst freq)))
             (fun _ => True)); [| |done|done].
  - rewrite <- for_each_flat_map.
    change (0, s) with (wrap64 (N.of_nat 0), s).
    rewrite occurrences_walk.
    by destruct (for_each (token_step init) _ s).
  - intros freq ns _. unfold posting_body. apply for_each_seq_replicate.
Qed.

Lemma token_step_idx (init : bool) (x : token) (s s' : lda_gibbs) :
  token_step init x s = Some s' -> idx_ s' = idx_ s.
Proof.
  destruct x as [[d n] w]. unfold token_step, assign_token, resample_token.
  destruct init.
  - pose proof (sample_topic_state w d s) as E.
    destruct (sample_topic w d s) as [t s2]; cbn in E.
    intros [= <-]. rewrite E. reflexivity.
  - destruct (decrease_counts _ w d s) as [s1|] eqn:Hd; [|done].
    pose proof (sample_topic_state w d s1) as E.
    destruct (sample_topic w d s1) as [t s2]; cbn in E.
    intros [= <-]. rewrite E, (decrease_counts_state _ _ _ _ _ Hd). reflexivity.
Qed.

Lemma tokens_idx (init : bool) (l : list token) (s s' : lda_gibbs) :
  for_each (token_step init) l s = Some s' -> idx_ s' = idx_ s.
Proof.
  apply (for_each_invariant _ (fun s0 => idx_ s0 = idx_ s)); [|done].
  intros x s0 s1 _ H0 H1. by rewrite (token_step_idx _ _ _ _ H1).
Qed.

(** A sweep is the fold of the per-occurrence step over the token order. *)
Lemma perform_iteration_tokens (iter : N) (init : bool) (s : lda_gibbs) :
  perform_iteration iter init s
  = for_each (token_step init) (token_order (idx_ s)) s.
Proof.
  unfold perform_iteration, token_order. rewrite for_each_flat_map.
  apply (for_each_ext_in _ _ (fun s0 => idx_ s0 = idx_ s)); [| |done].
  - intros d s0 H0. by rewrite doc_body_tokens, H0.
  - intros d s0 s1 H0 H1. by rewrite (tokens_idx _ _ _ _ H1).
Qed.

(** ** [increase_counts] and [decrease_counts] on the stored counts *)

Lemma increase_counts_stored (t w d : N) (s : lda_gibbs) :
  (forall w' t', stored_term (increase_counts t w d s) w' t'
                 = stored_term s w' t' + ind (t' = t /\ w' = w))
  /\ (forall d' t', stored_doc (increase_counts t w d s) d' t'
                    = stored_doc s d' t' + ind (d' = d /\ t' = t))
  /\ (forall t', stored_topic (increase_counts t w d s) t'
                 = stored_topic s t' + ind (t' = t)).
Proof.
  unfold stored_term, stored_doc, stored_topic, increase_counts, ind; cbn.
  repeat split; intros.
  - apply peek2_bump2.
  - apply peek2_bump2.
  - apply peek_bump.
Qed.

Lemma decrease_counts_is_Some (t w d : N) (s : lda_gibbs) :
  1 <= stored_term s w t -> 1 <= stored_doc s d t -> 1 <= stored_topic s t ->
  is_Some (decrease_counts t w d s).
Proof.
  unfold stored_term, stored_doc, stored_topic, decrease_counts.
  intros H1 H2 H3.
  destruct (unbump2_is_Some _ _ _ H1) as [m1 ->].
  destruct (unbump2_is_Some _ _ _ H2) as [m2 ->].
  destruct (unbump_is_Some _ _ H3) as [m3 ->]. eauto.
Qed.

Lemma decrease_counts_stored (t w d : N) (s s' : lda_gibbs) :
  decrease_counts t w d s = Some s' ->
  (forall w' t', stored_term s' w' t'
                 = stored_term s w' t' - ind (t' = t /\ w' = w))
  /\ (forall d' t', stored_doc s' d' t'
                    = stored_doc s d' t' - ind (d' = d /\ t' = t))
  /\ (forall t', stored_topic s' t' = stored_topic s t' - ind (t' = t)).
Proof.
  unfold stored_term, stored_doc, stored_topic, decrease_counts, ind.
  destruct (unbump2 t w (topic_term_count_ s)) as [m1|] eqn:H1; [|done].
  destruct (unbump2 d t (doc_topic_count_ s)) as [m2|] eqn:H2; [|done].
  destruct (unbump t (topic_count_ s)) as [m3|] eqn:H3; [|done].
  intros [= <-]; cbn. repeat split; intros.
  - by apply peek2_unbump2.
  - by apply peek2_unbump2.
  - by apply peek_unbump.
Qed.

Lemma increase_counts_sparse (t w d : N) (s : lda_gibbs) :
  sparse s -> sparse (increase_counts t w d s).
Proof.
  intros (H1 & H2 & H3). repeat split; cbn.
  - by apply nonzero2_bump2.
  - by apply nonzero2_bump2.
  - by apply nonzero1_bump.
Qed.

Lemma decrease_counts_sparse (t w d : N) (s s' : lda_gibbs) :
  sparse s -> decrease_counts t w d s = Some s' -> sparse s'.
Proof.
  intros (H1 & H2 & H3). unfold decrease_counts.
  destruct (unbump2 t w (topic_term_count_ s)) as [m1|] eqn:E1; [|done].
  destruct (unbump2 d t (doc_topic_count_ s)) as [m2|] eqn:E2; [|done].
  destruct (unbump t (topic_count_ s)) as [m3|] eqn:E3; [|done].
  intros [= <-]. repeat split; cbn.
  - exact (nonzero2_unbump2 _ _ _ _ H1 E1).
  - exact (nonzero2_unbump2 _ _ _ _ H2 E2).
  - exact (nonzero1_unbump _ _ _ H3 E3).
Qed.

Lemma increase_counts_total (t w d : N) (s : lda_gibbs) :
  total_topic_count (increase_counts t w d s) = total_topic_count s + 1.
Proof. apply table_sum_bump. Qed.

Lemma decrease_counts_total (t w d : N) (s s' : lda_gibbs) :
  1 <= stored_topic s t -> decrease_counts t w d s = Some s' ->
  total_topic_count s' + 1 = total_topic_count s.
Proof.
  unfold stored_topic, total_topic_count, decrease_counts. intros Hc.
  destruct (unbump2 t w (topic_term_count_ s)) as [m1|]; [|done].
  destruct (unbump2 d t (doc_topic_count_ s)) as [m2|]; [|done].
  destruct (unbump t (topic_count_ s)) as [m3|] eqn:E3; [|done].
  intros [= <-]; cbn. by apply table_sum_unbump with t.
Qed.

(** A successful [decrease_counts] found all three counters stored. *)
Lemma decrease_counts_found (t w d : N) (s s' : lda_gibbs) :
  sparse s -> decrease_counts t w d s = Some s' ->
  1 <= stored_term s w t /\ 1 <= stored_doc s d t /\ 1 <= stored_topic s t.
Proof.
  intros (H1 & H2 & H3).
  unfold decrease_counts, stored_term, stored_doc, stored_topic.
  destruct (unbump2 t w (topic_term_count_ s)) as [m1|] eqn:E1; [|done].
  destruct (unbump2 d t (doc_topic_count_ s)) as [m2|] eqn:E2; [|done].
  destruct (unbump t (topic_count_ s)) as [m3|] eqn:E3; [|done].
  intros _. unfold unbump2 in E1, E2.
  destruct (topic_term_count_ s !! t) as [i1|] eqn:L1; [|done].
  destruct (doc_topic_count_ s !! d) as [i2|] eqn:L2; [|done].
  unfold unbump in *.
  destruct (i1 !! w) eqn:L1'; [|done].
  destruct (i2 !! t) eqn:L2'; [|done].
  destruct (topic_count_ s !! t) eqn:L3; [|done].
  repeat split.
  - eapply nonzero2_peek2; eauto.
  - eapply nonzero2_peek2; eauto.
  - apply nonzero1_peek; eauto.
Qed.

(** ** Counting occurrences *)

Lemma ind_iff (P Q : Prop) `{Decision P} `{Decision Q} :
  (P <-> Q) -> ind P = ind Q.
Proof. unfold ind. intros HPQ. repeat case_decide; tauto. Qed.

Lemma ind_true (P : Prop) `{Decision P} : P -> ind P = 1.
Proof. unfold ind. by case_decide. Qed.

Lemma tally_ext (P P' : token -> Prop) `{!forall x, Decision (P x)}
    `{!forall x, Decision (P' x)} (l : list token) :
  (forall x, x ∈ l -> (P' x <-> P x)) -> tally P' l = tally P l.
Proof.
  induction l as [|x l IH]; intros HP; cbn; [done|].
  rewrite IH by (intros y Hy; apply HP; by right).
  f_equal. apply ind_iff, HP. by left.
Qed.

(** Changing the predicate at one key changes the tally by that
    occurrence alone. *)
Lemma tally_change (P P' : token -> Prop) `{!forall x, Decision (P x)}
    `{!forall x, Decision (P' x)} (l : list token) (x0 : token) :
  NoDup (fst <$> l) -> x0 ∈ l ->
  (forall x, x ∈ l -> x.1 <> x0.1 -> (P' x <-> P x)) ->
  tally P' l + ind (P x0) = tally P l + ind (P' x0)
  /\ ind (P x0) <= tally P l.
Proof.
  induction l as [|x l IH]; intros Hnd Hin HP; [by apply elem_of_nil in Hin|].
  cbn in Hnd. apply NoDup_cons in Hnd as [Hx Hnd]. cbn.
  apply elem_of_cons in Hin as [->|Hin].
  - rewrite (tally_ext P P' l); [lia|].
    intros y Hy. apply HP; [by right|].
    intros E. apply Hx. rewrite <- E. by apply list_elem_of_fmap_2.
  - destruct IH as [IH1 IH2]; [done | done | |].
    { intros y Hy. apply HP. by right. }
    assert (ind (P' x) = ind (P x)) as ->.
    { apply ind_iff, HP; [by left|].
      intros E. apply Hx. rewrite E. by apply list_elem_of_fmap_2. }
    lia.
Qed.

(** ** Effect of one step on the assignment and on the counters *)

Lemma assigned_dwt_assign (d n t : N) (s : lda_gibbs) (x : token) :
  assigned (dwt_assign d n t s) x
  = if decide (x.1 = (d, n)) then Some t else assigned s x.
Proof.
  destruct x as [[d' n'] w]. unfold assigned, dwt_assign; cbn.
  destruct (decide (d' = d)) as [->|Hd].
  - rewrite lookup_insert_eq. destruct (decide (n' = n)) as [->|Hn].
    + rewrite lookup_insert_eq. by rewrite decide_True.
    + rewrite lookup_insert_ne by done. rewrite decide_False by congruence.
      by destruct (doc_word_topic_ s !! d).
  - rewrite lookup_insert_ne by done. by rewrite decide_False by congruence.
Qed.

Lemma dwt_read_assigned (d n w old : N) (s : lda_gibbs) :
  assigned s (d, n, w) = Some old -> dwt_read d n s = old.
Proof.
  unfold assigned, dwt_read; cbn.
  destruct (doc_word_topic_ s !! d) as [inner|]; [|done].
  cbn. by intros ->.
Qed.

Lemma assign_token_effect (d n w : N) (s s' : lda_gibbs) :
  assign_token (d, n, w) s = Some s' ->
  exists new r,
    s' = increase_counts new w d (dwt_assign d n new (set_rng s r)).
Proof.
  unfold assign_token. pose proof (sample_topic_state w d s) as E.
  destruct (sample_topic w d s) as [new s2]; cbn in E.
  intros [= <-]. exists new, (rng_ s2). by rewrite <- E.
Qed.

Lemma resample_token_effect (d n w : N) (s s' : lda_gibbs) :
  resample_token (d, n, w) s = Some s' ->
  exists s1 new r,
    decrease_counts (dwt_read d n s) w d s = Some s1
    /\ s' = increase_counts new w d (dwt_assign d n new (set_rng s1 r)).
Proof.
  unfold resample_token.
  destruct (decrease_counts _ w d s) as [s1|] eqn:Hd; [|done].
  pose proof (sample_topic_state w d s1) as E.
  destruct (sample_topic w d s1) as [new s2]; cbn in E.
  intros [= <-]. exists s1, new, (rng_ s2). by rewrite <- E.
Qed.

Lemma resample_token_is_Some (d n w : N) (s s1 : lda_gibbs) :
  decrease_counts (dwt_read d n s) w d s = Some s1 ->
  is_Some (resample_token (d, n, w) s).
Proof.
  unfold resample_token. intros ->.
  destruct (sample_topic w d s1). eauto.
Qed.

Lemma covered_assign (x : token) (s s' : lda_gibbs) :
  NoDup (fst <$> token_order (idx_ s)) -> x ∈ token_order (idx_ s) ->
  covered s -> assign_token x s = Some s' -> covered s'.
Proof.
  forget_library.
  intros Hnd Hx (C1 & C2 & C3) Hs. destruct x as [[d n] w].
  pose proof (token_step_idx true _ _ _ Hs) as Hidx.
  apply assign_token_effect in Hs as (new & r & ->).
  destruct (increase_counts_stored new w d (dwt_assign d n new (set_rng s r)))
    as (S1 & S2 & S3).
  unfold covered. rewrite Hidx.
  assert (forall (Q : token -> Prop) `{!forall y, Decision (Q y)} t,
    tally (fun y => assigned (increase_counts new w d
                      (dwt_assign d n new (set_rng s r))) y = Some t /\ Q y)
          (token_order (idx_ s))
    <= tally (fun y => assigned s y = Some t /\ Q y) (token_order (idx_ s))
       + ind (t = new /\ Q (d, n, w))) as T.
  { intros Q HQ t.
    destruct (tally_change (fun y => assigned s y = Some t /\ Q y)
                (fun y => assigned (increase_counts new w d
                      (dwt_assign d n new (set_rng s r))) y = Some t /\ Q y)
                (token_order (idx_ s)) (d, n, w) Hnd Hx) as [T1 T2].
    { intros y _ Hy.
      change (assigned (increase_counts new w d
                (dwt_assign d n new (set_rng s r))) y)
        with (assigned (dwt_assign d n new (set_rng s r)) y).
      rewrite assigned_dwt_assign. by rewrite decide_False. }
    change (assigned (increase_counts new w d
              (dwt_assign d n new (set_rng s r))) (d, n, w))
      with (assigned (dwt_assign d n new (set_rng s r)) (d, n, w)) in T1.
    rewrite assigned_dwt_assign, decide_True in T1 by done.
    rewrite (ind_iff (Some new = Some t /\ Q (d, n, w))
               (t = new /\ Q (d, n, w))) in T1 by intuition congruence.
    lia. }
  repeat split.
  - intros t w'. rewrite S1. specialize (T (fun y => y.2 = w') _ t).
    specialize (C1 t w'). cbn in T.
    rewrite (ind_iff (t = new /\ w = w') (t = new /\ w' = w)) in T by intuition congruence.
    change (stored_term (dwt_assign d n new (set_rng s r)) w' t)
      with (stored_term s w' t). lia.
  - intros d' t. rewrite S2. specialize (T (fun y => y.1.1 = d') _ t).
    specialize (C2 d' t). cbn in T.
    rewrite (ind_iff (t = new /\ d = d') (d' = d /\ t = new)) in T by intuition congruence.
    change (stored_doc (dwt_assign d n new (set_rng s r)) d' t)
      with (stored_doc s d' t). lia.
  - intros t. rewrite S3. specialize (T (fun y => True) _ t).
    specialize (C3 t). cbn in T.
    rewrite (ind_iff (t = new /\ True) (t = new)) in T by intuition congruence.
    change (stored_topic (dwt_assign d n new (set_rng s r)) t)
      with (stored_topic s t). lia.
Qed.

Lemma covered_resample (x : token) (s : lda_gibbs) :
  NoDup (fst <$> token_order (idx_ s)) -> x ∈ token_order (idx_ s) ->
  covered s -> is_Some (assigned s x) ->
  exists s', resample_token x s = Some s' /\ covered s'.
Proof.
  forget_library.
  intros Hnd Hx (C1 & C2 & C3) [old Hold]. destruct x as [[d n] w].
  pose proof (dwt_read_assigned _ _ _ _ _ Hold) as Hread.
  assert (forall (Q : token -> Prop) `{!forall y, Decision (Q y)},
            Q (d, n, w) ->
            1 <= tally (fun y => assigned s y = Some old /\ Q y)
                   (token_order (idx_ s))) as Hone.
  { intros Q HQ Hq.
    destruct (tally_change (fun y => assigned s y = Some old /\ Q y)
                (fun y => assigned s y = Some old /\ Q y)
                (token_order (idx_ s)) (d, n, w) Hnd Hx) as [_ T2]; [done|].
    rewrite ind_true in T2 by done. done. }
  destruct (decrease_counts_is_Some old w d s) as [s1 Hd].
  { specialize (C1 old w). specialize (Hone (fun y => y.2 = w) _ eq_refl). lia. }
  { specialize (C2 d old). specialize (Hone (fun y => y.1.1 = d) _ eq_refl). lia. }
  { specialize (C3 old). specialize (Hone (fun y => True) _ I). lia. }
  rewrite <- Hread in Hd.
  destruct (resample_token_is_Some _ _ _ _ _ Hd) as [s' Hs]. exists s'.
  split; [done|].
  pose proof (token_step_idx false _ _ _ Hs) as Hidx.
  apply resample_token_effect in Hs as (s1' & new & r & Hd' & ->).
  rewrite Hd in Hd'. injection Hd' as <-. rewrite Hread in Hd.
  destruct (decrease_counts_stored _ _ _ _ _ Hd) as (D1 & D2 & D3).
  destruct (increase_counts_stored new w d (dwt_assign d n new (set_rng s1 r)))
    as (S1 & S2 & S3).
  assert (doc_word_topic_ s1 = doc_word_topic_ s) as Hdwt.
  { by rewrite (decrease_counts_state _ _ _ _ _ Hd). }
  unfold covered. rewrite Hidx.
  assert (forall (Q : token -> Prop) `{!forall y, Decision (Q y)} t,
    tally (fun y => assigned (increase_counts new w d
                      (dwt_assign d n new (set_rng s1 r))) y = Some t /\ Q y)
          (token_order (idx_ s)) + ind (t = old /\ Q (d, n, w))
    = tally (fun y => assigned s y = Some t /\ Q y) (token_order (idx_ s))
       + ind (t = new /\ Q (d, n, w))
    /\ ind (t = old /\ Q (d, n, w))
       <= tally (fun y => assigned s y = Some t /\ Q y)
            (token_order (idx_ s))) as T.
  { intros Q HQ t.
    assert (forall y, assigned (increase_counts new w d
                        (dwt_assign d n new (set_rng s1 r))) y
                      = if decide (y.1 = (d, n)) then Some new
                        else assigned s y) as Ha.
    { intros y.
      change (assigned (increase_counts new w d
                (dwt_assign d n new (set_rng s1 r))) y)
        with (assigned (dwt_assign d n new (set_rng s1 r)) y).
      rewrite assigned_dwt_assign. case_decide; [done|].
      unfold assigned; cbn. by rewrite Hdwt. }
    destruct (tally_change (fun y => assigned s y = Some t /\ Q y)
                (fun y => assigned (increase_counts new w d
                      (dwt_assign d n new (set_rng s1 r))) y = Some t /\ Q y)
                (token_order (idx_ s)) (d, n, w) Hnd Hx) as [T1 T2].
    { intros y _ Hy. rewrite Ha. by rewrite decide_False. }
    rewrite Ha, decide_True, Hold in T1 by done. rewrite Hold in T2.
    rewrite (ind_iff (Some new = Some t /\ Q (d, n, w))
               (t = new /\ Q (d, n, w))) in T1 by intuition congruence.
    rewrite (ind_iff (Some old = Some t /\ Q (d, n, w))
               (t = old /\ Q (d, n, w))) in T1, T2 by intuition congruence.
    done. }
  repeat split.
  - intros t w'. rewrite S1. destruct (T (fun y => y.2 = w') _ t) as [T1 T2].
    specialize (C1 t w'). cbn in T1, T2.
    rewrite (ind_iff (t = new /\ w = w') (t = new /\ w' = w)) in T1
      by intuition congruence.
    rewrite (ind_iff (t = old /\ w = w') (t = old /\ w' = w)) in T1, T2
      by intuition congruence.
    change (stored_term (dwt_assign d n new (set_rng s1 r)) w' t)
      with (stored_term s1 w' t). rewrite D1. lia.
  - intros d' t. rewrite S2. destruct (T (fun y => y.1.1 = d') _ t) as [T1 T2].
    specialize (C2 d' t). cbn in T1, T2.
    rewrite (ind_iff (t = new /\ d = d') (d' = d /\ t = new)) in T1
      by intuition congruence.
    rewrite (ind_iff (t = old /\ d = d') (d' = d /\ t = old)) in T1, T2
      by intuition congruence.
    change (stored_doc (dwt_assign d n new (set_rng s1 r)) d' t)
      with (stored_doc s1 d' t). rewrite D2. lia.
  - intros t. rewrite S3. destruct (T (fun y => True) _ t) as [T1 T2].
    specialize (C3 t). cbn in T1, T2.
    rewrite (ind_iff (t = new /\ True) (t = new)) in T1 by intuition congruence.
    rewrite (ind_iff (t = old /\ True) (t = old)) in T1, T2
      by intuition congruence.
    change (stored_topic (dwt_assign d n new (set_rng s1 r)) t)
      with (stored_topic s1 t). rewrite D3. lia.
Qed.

(** ** The token order under the index contract *)

Lemma length_doc_terms (idx : forward_index) (d : N) :
  N.of_nat (length (doc_terms idx d)) = posting_total idx d.
Proof.
  unfold doc_terms, posting_total.
  induction (search_primary idx d) as [|[w c] l IH]; cbn; [done|].
  rewrite length_app, length_replicate, Nat2N.inj_add, N2Nat.id, IH. done.
Qed.

Lemma length_doc_tokens (idx : forward_index) (d : N) :
  N.of_nat (length (doc_tokens idx d)) = posting_total idx d.
Proof.
  unfold doc_tokens, doc_tokens_from. rewrite length_imap.
  apply length_doc_terms.
Qed.

Lemma length_token_order (idx : forward_index) :
  index_ok idx -> N.of_nat (length (token_order idx)) = corpus_size idx.
Proof.
  intros [_ Hsz]. unfold token_order, corpus_size.
  induction Hsz as [|d ds [Hd _] _ IH]; cbn; [done|].
  rewrite length_app, Nat2N.inj_add, IH, length_doc_tokens, Hd. done.
Qed.

Lemma doc_tokens_from_keys (d : N) (p : nat) (ws : list N) :
  fst <$> doc_tokens_from d p ws
  = (fun q => (d, wrap64 (N.of_nat q))) <$> seq p (length ws).
Proof.
  revert p. induction ws as [|w ws IH]; intros p; [done|].
  rewrite doc_tokens_from_cons. cbn. by rewrite IH.
Qed.

Lemma doc_tokens_NoDup (idx : forward_index) (d : N) :
  posting_total idx d < uint64_max -> NoDup (fst <$> doc_tokens idx d).
Proof.
  intros Hlt. unfold doc_tokens. rewrite doc_tokens_from_keys.
  apply NoDup_fmap_2_strong; [|apply NoDup_seq].
  pose proof (length_doc_terms idx d) as Hlen.
  intros x y Hx%elem_of_seq Hy%elem_of_seq [= E]. unfold wrap64 in E.
  rewrite !N.mod_small in E by lia. lia.
Qed.

Lemma doc_tokens_doc (idx : forward_index) (d : N) (k : N * N) :
  k ∈ fst <$> doc_tokens idx d -> k.1 = d.
Proof.
  unfold doc_tokens. rewrite doc_tokens_from_keys.
  intros (q & -> & _)%list_elem_of_fmap. done.
Qed.

Lemma tokens_docs (idx : forward_index) (ds : list N) (k : N * N) :
  k ∈ fst <$> flat_map (doc_tokens idx) ds -> k.1 ∈ ds.
Proof.
  induction ds as [|d ds IH]; cbn.
  - by intros ?%elem_of_nil.
  - rewrite fmap_app. intros [H|H]%elem_of_app.
    + apply doc_tokens_doc in H as ->. by left.
    + right. by apply IH.
Qed.

Lemma token_order_NoDup (idx : forward_index) :
  index_ok idx -> NoDup (fst <$> token_order idx).
Proof.
  intros [Hnd Hsz]. unfold token_order.
  induction Hsz as [|d ds [Hd Hlt] _ IH]; cbn; [constructor|].
  apply NoDup_cons in Hnd as [Hd' Hnd].
  rewrite fmap_app. apply NoDup_app. split; [|split].
  - apply doc_tokens_NoDup. by rewrite <- Hd.
  - intros k Hk Hk'. apply doc_tokens_doc in Hk. apply tokens_docs in Hk'.
    by rewrite Hk in Hk'.
  - by apply IH.
Qed.

(** While a document has fewer than 2^64 occurrences the counter [n]
    of the sweep is the position of the occurrence. *)
Lemma token_order_occurrences (idx : forward_index) :
  index_ok idx -> token_order idx = occurrences idx.
Proof.
  intros [_ Hsz]. unfold token_order, occurrences.
  induction Hsz as [|d ds [Hd Hlt] _ IH]; cbn; [done|].
  rewrite IH. f_equal. unfold doc_tokens, doc_tokens_from.
  apply imap_ext. intros q w Hq%lookup_lt_Some. cbn.
  pose proof (length_doc_terms idx d) as Hlen.
  unfold wrap64. rewrite N.mod_small by lia. done.
Qed.

(** ** Steps: assignment, sparsity, total *)

Lemma token_step_assignment (init : bool) (d n w : N) (s s' : lda_gibbs) :
  token_step init (d, n, w) s = Some s' ->
  exists new, forall y,
    assigned s' y = if decide (y.1 = (d, n)) then Some new else assigned s y.
Proof.
  destruct init; cbn.
  - intros (new & r & ->)%assign_token_effect. exists new. intros y.
    change (assigned (increase_counts new w d
              (dwt_assign d n new (set_rng s r))) y)
      with (assigned (dwt_assign d n new (set_rng s r)) y).
    by rewrite assigned_dwt_assign.
  - intros (s1 & new & r & Hd & ->)%resample_token_effect. exists new.
    intros y.
    change (assigned (increase_counts new w d
              (dwt_assign d n new (set_rng s1 r))) y)
      with (assigned (dwt_assign d n new (set_rng s1 r)) y).
    rewrite assigned_dwt_assign. case_decide; [done|].
    unfold assigned; cbn. by rewrite (decrease_counts_state _ _ _ _ _ Hd).
Qed.

Lemma token_step_assigned (init : bool) (x : token) (s s' : lda_gibbs) :
  token_step init x s = Some s' ->
  is_Some (assigned s' x)
  /\ forall y, is_Some (assigned s y) -> is_Some (assigned s' y).
Proof.
  destruct x as [[d n] w].
  intros (new & Ha)%token_step_assignment. split.
  - rewrite Ha, decide_True by done. eauto.
  - intros y Hy. rewrite Ha. case_decide; eauto.
Qed.

Lemma token_step_sparse (init : bool) (x : token) (s s' : lda_gibbs) :
  sparse s -> token_step init x s = Some s' -> sparse s'.
Proof.
  destruct x as [[d n] w]. intros Hs. destruct init; cbn.
  - intros (new & r & ->)%assign_token_effect.
    by apply increase_counts_sparse.
  - intros (s1 & new & r & Hd & ->)%resample_token_effect.
    apply increase_counts_sparse.
    exact (decrease_counts_sparse _ _ _ _ _ Hs Hd).
Qed.

Lemma assign_token_total (x : token) (s s' : lda_gibbs) :
  assign_token x s = Some s' ->
  total_topic_count s' = total_topic_count s + 1.
Proof.
  destruct x as [[d n] w]. intros (new & r & ->)%assign_token_effect.
  by rewrite increase_counts_total.
Qed.

(** A resample step moves one unit of [topic_count] from the old topic
    to the new one. *)
Lemma resample_token_total (x : token) (s s' : lda_gibbs) :
  sparse s -> resample_token x s = Some s' ->
  total_topic_count s' = total_topic_count s.
Proof.
  destruct x as [[d n] w].
  intros Hs (s1 & new & r & Hd & ->)%resample_token_effect.
  rewrite increase_counts_total.
  destruct (decrease_counts_found _ _ _ _ _ Hs Hd) as (_ & _ & H3).
  pose proof (decrease_counts_total _ _ _ _ _ H3 Hd) as Ht.
  change (total_topic_count (dwt_assign d n new (set_rng s1 r)))
    with (total_topic_count s1). lia.
Qed.

Lemma assign_token_is_Some (x : token) (s : lda_gibbs) :
  is_Some (assign_token x s).
Proof.
  destruct x as [[d n] w]. unfold assign_token.
  destruct (sample_topic w d s). eauto.
Qed.

(** ** Sweeps *)

Lemma assign_sweep_total (l : list token) (s : lda_gibbs) :
  exists s', for_each assign_token l s = Some s'
    /\ total_topic_count s' = total_topic_count s + N.of_nat (length l)
    /\ (sparse s -> sparse s').
Proof.
  revert s. induction l as [|x l IH]; intros s; cbn.
  - exists s. split; [done|]. split; [lia | done].
  - destruct (assign_token_is_Some x s) as [s1 H1]. rewrite H1.
    destruct (IH s1) as (s' & H' & Ht & Hsp). exists s'. split; [done|].
    rewrite Ht, (assign_token_total _ _ _ H1). split; [lia|].
    intros Hs. apply Hsp. exact (token_step_sparse true _ _ _ Hs H1).
Qed.

Lemma assign_sweep_covered (l : list token) (s : lda_gibbs) (idx : forward_index) :
  NoDup (fst <$> token_order idx) -> l ⊆ token_order idx ->
  idx_ s = idx -> covered s ->
  forall s', for_each assign_token l s = Some s' ->
    covered s'
    /\ (forall x, x ∈ l -> is_Some (assigned s' x))
    /\ (forall y, is_Some (assigned s y) -> is_Some (assigned s' y)).
Proof.
  intros Hnd. revert s. induction l as [|x l IH]; intros s Hl Hidx Hc s'; cbn.
  - intros [= <-]. split; [done|]. split; [|done].
    by intros x ?%elem_of_nil.
  - destruct (assign_token x s) as [s1|] eqn:H1; [|done]. intros H'.
    assert (x ∈ token_order (idx_ s)) as Hx.
    { rewrite Hidx. apply Hl. by left. }
    destruct (token_step_assigned true _ _ _ H1) as [Hx1 Hmono1].
    destruct (IH s1) with (s' := s') as (Hc' & Hall & Hmono); try done.
    + intros y Hy. apply Hl. by right.
    + by rewrite (token_step_idx true _ _ _ H1).
    + apply (covered_assign x s); [by rewrite Hidx | done | done | done].
    + split; [done|]. split.
      * intros y [->|Hy]%elem_of_cons; [by apply Hmono | by apply Hall].
      * intros y Hy. by apply Hmono, Hmono1.
Qed.

Lemma resample_sweep (l : list token) (s : lda_gibbs) (idx : forward_index) :
  NoDup (fst <$> token_order idx) -> l ⊆ token_order idx ->
  settled idx s ->
  exists s', for_each resample_token l s = Some s' /\ settled idx s'.
Proof.
  intros Hnd Hl. apply for_each_total.
  intros x s0 Hx (Hidx & Hc & Ha).
  assert (x ∈ token_order (idx_ s0)) as Hx0 by (rewrite Hidx; by apply Hl).
  destruct (covered_resample x s0) as (s1 & H1 & Hc1);
    [by rewrite Hidx | done | done | by apply Ha |].
  exists s1. split; [done|].
  pose proof (token_step_idx false _ _ _ H1) as Hidx1.
  split; [congruence|]. split; [done|].
  intros y Hy. rewrite Hidx1 in Hy.
  by apply (token_step_assigned false _ _ _ H1), Ha.
Qed.

Lemma tally_none (P : token -> Prop) `{!forall x, Decision (P x)}
    (l : list token) :
  (forall x, ~ P x) -> tally P l = 0.
Proof.
  intros HP. induction l as [|x l IH]; cbn; [done|].
  rewrite IH. unfold ind. by rewrite decide_False.
Qed.

Lemma fresh_initial (s : lda_gibbs) :
  fresh s -> covered s /\ sparse s /\ total_topic_count s = 0.
Proof.
  intros (H1 & H2 & H3 & H4).
  assert (forall x, assigned s x = None) as Hnone.
  { intros x. unfold assigned. by rewrite H4, lookup_empty. }
  split; [|split].
  - repeat split; intros; rewrite tally_none; try lia;
      intros x [Hx _]; by rewrite Hnone in Hx.
  - unfold sparse. rewrite H1, H2, H3.
    auto using nonzero2_empty, nonzero1_empty.
  - unfold total_topic_count. rewrite H3. apply table_sum_empty.
Qed.

Lemma lda_gibbs_new_fresh (idx : forward_index) (K : N) (alpha beta : float)
    (entropy : N) (s : lda_gibbs) :
  lda_gibbs_new idx K alpha beta entropy = Some s -> fresh s /\ idx_ s = idx.
Proof.
  unfold lda_gibbs_new. destruct (lda_model_new idx K) as [[k v]|]; [|done].
  by intros [= <-].
Qed.

Lemma initialize_settled (s : lda_gibbs) :
  index_ok (idx_ s) -> covered s ->
  exists s', initialize s = Some s' /\ settled (idx_ s) s'
    /\ total_topic_count s' = total_topic_count s + corpus_size (idx_ s)
    /\ (sparse s -> sparse s').
Proof.
  intros Hok Hc. unfold initialize. rewrite perform_iteration_tokens.
  destruct (assign_sweep_total (token_order (idx_ s)) s) as (s' & Hs & Ht & Hsp).
  exists s'. cbn [token_step]. split; [done|].
  pose proof (tokens_idx true _ _ _ Hs) as Hidx.
  destruct (assign_sweep_covered (token_order (idx_ s)) s (idx_ s)) with (s' := s')
    as (Hc' & Hall & _); try done.
  { by apply token_order_NoDup. }
  split; [|split; [|done]].
  - split; [done|]. split; [done|]. intros x Hx. apply Hall. by rewrite <- Hidx.
  - by rewrite Ht, length_token_order.
Qed.

Lemma iteration_settled (iter : N) (idx : forward_index) (s : lda_gibbs) :
  index_ok idx -> settled idx s ->
  exists s', perform_iteration iter false s = Some s' /\ settled idx s'
    /\ (sparse s ->
        sparse s' /\ total_topic_count s' = total_topic_count s).
Proof.
  intros Hok Hs. rewrite perform_iteration_tokens. cbn [token_step].
  destruct Hs as (Hidx & Hc & Ha). rewrite Hidx.
  destruct (resample_sweep (token_order idx) s idx) as (s' & Hs' & Hset);
    [by apply token_order_NoDup | done | done |].
  exists s'. split; [done|]. split; [done|]. intros Hsp.
  apply (for_each_invariant resample_token
           (fun s0 => sparse s0
                      /\ total_topic_count s0 = total_topic_count s)
           _ _ _) with (3 := Hs'); [|done].
  intros x s0 s1 _ [Hsp0 Ht0] H1. split.
  - exact (token_step_sparse false _ _ _ Hsp0 H1).
  - by rewrite (resample_token_total _ _ _ Hsp0 H1).
Qed.

Lemma run_loop_settled (idx : forward_index) (todo : nat) (i : N)
    (eps L : float) (s : lda_gibbs) (log : list float) :
  index_ok idx -> settled idx s ->
  exists st s' log', run_loop todo i eps L s log = Some (st, s', log')
    /\ settled idx s'
    /\ (sparse s -> sparse s' /\ total_topic_count s' = total_topic_count s).
Proof.
  intros Hok. revert i L s log.
  induction todo as [|todo IH]; intros i L s log Hs; cbn.
  - exists Exhausted, s, log. eauto.
  - destruct (iteration_settled (i + 1) idx s Hok Hs) as (s1 & -> & Hs1 & Hsp1).
    destruct (_ <=? eps)%float.
    + exists Converged, s1, (log ++ [corpus_likelihood s1]). eauto.
    + destruct (IH (i + 1) (corpus_likelihood s1) s1
                  (log ++ [corpus_likelihood s1]) Hs1)
        as (st & s' & log' & -> & Hs' & Hsp').
      exists st, s', log'. split; [done|]. split; [done|].
      intros Hsp. destruct (Hsp1 Hsp) as [Ha Hb].
      destruct (Hsp' Ha) as [Hc Hd]. split; [done | congruence].
Qed.

Lemma run_settled (num_iters : N) (eps : float) (s : lda_gibbs) :
  index_ok (idx_ s) -> covered s ->
  exists st s' log, run num_iters eps s = Some (st, s', log)
    /\ settled (idx_ s) s'
    /\ (sparse s ->
        sparse s'
        /\ total_topic_count s'
           = total_topic_count s + corpus_size (idx_ s)).
Proof.
  intros Hok Hc. unfold run.
  destruct (initialize_settled s Hok Hc) as (s1 & -> & Hs1 & Ht1 & Hsp1).
  destruct (run_loop_settled (idx_ s) (N.to_nat num_iters) 0 eps
              (corpus_likelihood s1) s1 [corpus_likelihood s1] Hok Hs1)
    as (st & s' & log' & -> & Hs' & Hsp').
  exists st, s', log'. split; [done|]. split; [done|].
  intros Hsp. destruct (Hsp' (Hsp1 Hsp)) as [Ha Hb]. split; [done | congruence].
Qed.

Lemma reachable_covered (s : lda_gibbs) :
  reachable s -> index_ok (idx_ s) -> covered s /\ sparse s.
Proof.
  induction 1 as [idx K a b e s Hnew | s n eps st s' log Hr IH Hrun];
    intros Hok.
  - apply lda_gibbs_new_fresh in Hnew as [Hf _].
    destruct (fresh_initial s Hf) as (? & ? & _). done.
  - assert (idx_ s' = idx_ s) as Hidx.
    { unfold run in Hrun.
      destruct (initialize s) as [s1|] eqn:H1; [|done].
      unfold initialize in H1. rewrite perform_iteration_tokens in H1.
      rewrite <- (tokens_idx _ _ _ _ H1).
      clear -Hrun. revert Hrun.
      generalize (corpus_likelihood s1) at 1. generalize [corpus_likelihood s1].
      generalize 0. revert s1.
      induction (N.to_nat n) as [|todo IHt]; intros s1 i log0 L; cbn.
      - by intros [= _ <- _].
      - destruct (perform_iteration (i + 1) false s1) as [s2|] eqn:H2; [|done].
        rewrite perform_iteration_tokens in H2.
        rewrite <- (tokens_idx _ _ _ _ H2).
        destruct (_ <=? eps)%float; [by intros [= _ <- _] | apply IHt]. }
    rewrite Hidx in Hok. destruct (IH Hok) as [Hc Hsp].
    destruct (run_settled n eps s Hok Hc) as (st' & s'' & log' & Hrun' & Hs & Hsp').
    rewrite Hrun in Hrun'. injection Hrun' as <- <- <-.
    destruct Hs as (_ & Hc' & _). destruct (Hsp' Hsp) as [? _]. done.
Qed.

(** ** Doubles: the two spellings of the convergence ratio *)

Lemma SFabs_binary_round_aux (p e0 : Z) (sx : bool) (m e : Z) (l : location) :
  SFabs (binary_round_aux p e0 sx m e l) = binary_round_aux p e0 false m e l.
Proof.
  unfold binary_round_aux.
  destruct (shr_fexp p e0 m e l) as [mrs e'].
  destruct (shr_fexp p e0 _ e' loc_Exact) as [mrs' e''].
  destruct (shr_m mrs'); try reflexivity.
  destruct (Z.leb e'' (Z.sub e0 p)); reflexivity.
Qed.

Lemma SFabs_binary_round (p e0 : Z) (sx : bool) (m : positive) (e : Z) :
  SFabs (binary_round p e0 sx m e) = binary_round p e0 false m e.
Proof.
  unfold binary_round. destruct (shl_align _ _ _) as [mz ez].
  apply SFabs_binary_round_aux.
Qed.

Lemma SFabs_binary_normalize_opp (p e0 : Z) (m e : Z) :
  SFabs (binary_normalize p e0 (- m) e false)
  = SFabs (binary_normalize p e0 m e false).
Proof.
  destruct m; unfold binary_normalize, Z.opp; [reflexivity| |];
    rewrite !SFabs_binary_round; reflexivity.
Qed.

Lemma SFabs_sub_swap (p e0 : Z) (x y : spec_float) :
  SFabs (SFsub p e0 x y) = SFabs (SFsub p e0 y x).
Proof.
  destruct x as [sx|sx| |sx mx ex], y as [sy|sy| |sy my ey];
    try reflexivity; try (destruct sx, sy; reflexivity).
  cbn -[binary_normalize]. rewrite (Z.min_comm ey ex).
  rewrite <- SFabs_binary_normalize_opp. f_equal. f_equal. lia.
Qed.

Lemma SFabs_div (p e0 : Z) (x y : spec_float) :
  SFabs (SFdiv p e0 x y) = SFdiv p e0 (SFabs x) (SFabs y).
Proof.
  destruct x as [sx|sx| |sx mx ex], y as [sy|sy| |sy my ey]; try reflexivity.
  cbn -[SFdiv_core_binary binary_round_aux].
  destruct (SFdiv_core_binary p e0 (Zpos mx) ex (Zpos my) ey) as [[mz ez] lz].
  apply SFabs_binary_round_aux.
Qed.

(** [fabs((L - L') / L)], as [run] computes it, is [|L' - L| / |L|]. *)
Lemma ratio_spec_ratio (L L' : float) :
  abs ((L - L') / L)%float = spec_ratio L L'.
Proof.
  unfold spec_ratio. apply Prim2SF_inj.
  rewrite abs_spec, !div_spec, !abs_spec, !sub_spec.
  unfold SF64div, SF64sub. rewrite SFabs_div. f_equal. apply SFabs_sub_swap.
Qed.

(** ** The loop of [run] *)

Lemma run_loop_iterates (todo : nat) (i : N) (eps L : float) (s : lda_gibbs)
    (log : list float) (st : run_status) (s' : lda_gibbs) (log' : list float) :
  index_ok (idx_ s) ->
  run_loop todo i eps L s log = Some (st, s', log') ->
  exists Ls, log' = log ++ Ls /\ iterates eps todo s L st s' Ls.
Proof.
  revert i L s log. induction todo as [|todo IH]; intros i L s log Hok; cbn.
  - intros [= <- <- <-]. exists []. split; [by rewrite app_nil_r | constructor].
  - destruct (perform_iteration (i + 1) false s) as [s1|] eqn:H1; [|done].
    rewrite perform_iteration_tokens in H1. cbn [token_step] in H1.
    pose proof (tokens_idx false _ _ _ H1) as Hidx.
    rewrite token_order_occurrences in H1 by done.
    rewrite ratio_spec_ratio.
    destruct (_ <=? eps)%float eqn:Hr.
    + intros [= <- <- <-]. exists [corpus_likelihood s1].
      split; [done|]. by constructor.
    + intros (Ls & -> & Hit)%IH; [|by rewrite Hidx].
      exists (corpus_likelihood s1 :: Ls).
      split; [by rewrite <- app_assoc|]. by econstructor.
Qed.

(** ** The likelihood loop *)

Lemma fold_left_flat_map {A B C : Type} (f : C -> B -> C) (g : A -> list B)
    (l : list A) (acc : C) :
  fold_left f (flat_map g l) acc
  = fold_left (fun a x => fold_left f (g x) a) l acc.
Proof.
  revert acc. induction l as [|x l IH]; intros acc; cbn; [done|].
  by rewrite fold_left_app, IH.
Qed.

Lemma fold_left_fmap {A B C : Type} (f : C -> B -> C) (g : A -> B)
    (l : list A) (acc : C) :
  fold_left f (g <$> l) acc = fold_left (fun a x => f a (g x)) l acc.
Proof.
  revert acc. induction l as [|x l IH]; intros acc; cbn; [done | apply IH].
Qed.

(** ** The weight vector *)

Lemma fill_fold (f : nat -> float) (pre : list float) (m : nat) :
  fold_left (fun ws j => <[j := f j]> ws) (seq (length pre) m)
    (pre ++ replicate m 0%float)
  = pre ++ (f <$> seq (length pre) m).
Proof.
  revert pre. induction m as [|m IH]; intros pre; [done|].
  cbn [seq fold_left replicate fmap list_fmap].
  replace (<[length pre := f (length pre)]>
             (pre ++ 0%float :: replicate m 0%float))
    with ((pre ++ [f (length pre)]) ++ replicate m 0%float).
  - replace (S (length pre)) with (length (pre ++ [f (length pre)]))
      by (rewrite length_app; cbn; lia).
    rewrite IH. by rewrite <- app_assoc.
  - rewrite <- app_assoc. cbn.
    rewrite insert_app_r_alt by lia. by rewrite Nat.sub_diag.
Qed.

(** ** Engines that deliver the same draws *)

Section SameDraws.

Variable R : rng_t -> rng_t -> Prop.

(** From related states the distribution draws the same index, whatever
    the weights, and leaves related states. *)
Hypothesis same_draws :
  forall ws r1 r2, R r1 r2 ->
    (discrete_distribution ws r1).1 = (discrete_distribution ws r2).1
    /\ R (discrete_distribution ws r1).2 (discrete_distribution ws r2).2.











End SameDraws.

(** * The claims *)

(** C1: over an index that keeps its contract, an iteration k >= 1
    ([perform_iteration k false], whatever k) visits the documents in
    [docs()] order, the postings of a document in postings order and
    the c occurrences of a posting in a row, the document-local index n
    counting up from 0, and performs on each occurrence: read
    old = doc_word_topic[d][n]; decrease(old, w, d); new = sample(w, d);
    doc_word_topic[d][n] = new; increase(new, w, d).  The sample is
    drawn from the tables as [decrease] left them: the three counters
    of (old, w, d) are one less than before the step. *)
Theorem perform_iteration_resamples (k : N) (s : lda_gibbs) :
  index_ok (idx_ s) ->
  perform_iteration k false s
  = for_each resample_token (occurrences (idx_ s)) s
  /\ forall d n w s0 s',
       sparse s0 -> resample_token (d, n, w) s0 = Some s' ->
       let old := dwt_read d n s0 in
       exists s1,
         decrease_counts old w d s0 = Some s1
         /\ stored_term s1 w old + 1 = stored_term s0 w old
         /\ stored_doc s1 d old + 1 = stored_doc s0 d old
         /\ stored_topic s1 old + 1 = stored_topic s0 old
         /\ let new := (sample_topic w d s1).1 in
            s' = increase_counts new w d
                   (dwt_assign d n new (sample_topic w d s1).2).
Proof.
  intros Hok. split.
  { rewrite perform_iteration_tokens. by rewrite token_order_occurrences. }
  intros d n w s0 s' Hsp Hs old. unfold resample_token in Hs. fold old in Hs.
  destruct (decrease_counts old w d s0) as [s1|] eqn:Hd; [|done].
  exists s1. split; [done|].
  destruct (decrease_counts_found _ _ _ _ _ Hsp Hd) as (F1 & F2 & F3).
  destruct (decrease_counts_stored _ _ _ _ _ Hd) as (D1 & D2 & D3).
  rewrite D1, D2, D3. unfold ind. rewrite !decide_True by done.
  repeat split; try lia.
  destruct (sample_topic w d s1) as [new s2]. by injection Hs as <-.
Qed.

(** C2 (amended): in the first run of a sampler as constructed, over an
    index that keeps its contract, the initialization sweep succeeds and
    leaves the sum over topics of topic_count equal to the sum over
    documents of doc_size; the equality holds again after every later
    resample step (a decrease/increase pair), whatever occurrences are
    resampled and however many; and resampling occurrences of the
    corpus never fails. *)
Theorem topic_count_total_after_init (s0 : lda_gibbs) :
  index_ok (idx_ s0) -> fresh s0 ->
  exists s1,
    initialize s0 = Some s1
    /\ total_topic_count s1 = corpus_size (idx_ s0)
    /\ (forall (steps : list token) (s : lda_gibbs),
          for_each resample_token steps s1 = Some s ->
          total_topic_count s = corpus_size (idx_ s0))
    /\ (forall steps : list token,
          steps ⊆ occurrences (idx_ s0) ->
          is_Some (for_each resample_token steps s1)).
Proof.
  intros Hok Hf. destruct (fresh_initial s0 Hf) as (Hc & Hsp & Ht).
  destruct (initialize_settled s0 Hok Hc) as (s1 & Hi & Hset & Ht1 & Hsp1).
  exists s1. split; [done|]. rewrite Ht, N.add_0_l in Ht1. split; [done|].
  split.
  - intros steps s Hs.
    apply (for_each_invariant resample_token
             (fun s2 => sparse s2
                        /\ total_topic_count s2 = corpus_size (idx_ s0))
             _ _ _) with (3 := Hs); [|by auto].
    intros x s2 s3 _ [Hsp2 Ht2] H3. split.
    + exact (token_step_sparse false _ _ _ Hsp2 H3).
    + by rewrite (resample_token_total _ _ _ Hsp2 H3).
  - intros steps Hsteps.
    rewrite <- token_order_occurrences in Hsteps by done.
    destruct (resample_sweep steps s1 (idx_ s0)) as (s & Hs & _);
      [by apply token_order_NoDup | done | done |]. by exists s.
Qed.

(** C3: on every sampler a program can hold (constructed, possibly run
    before), over an index that keeps its contract, [run max_iters eps]
    returns: it throws nothing.  It performs the initialization sweep,
    reports L_0, then iterates; after iteration k it reports L_k and
    stops as Converged when |L_k - L_{k-1}| / |L_{k-1}| <= eps, and it
    stops as Exhausted once max_iters iterations have run.  With
    max_iters = 0 only the initialization sweep is performed and the
    run ends as Exhausted. *)
Theorem run_terminates (max_iters : N) (eps : float) (s : lda_gibbs) :
  index_ok (idx_ s) -> reachable s ->
  exists s1 st s' Ls,
    spec_initialization s = Some s1
    /\ run max_iters eps s = Some (st, s', corpus_likelihood s1 :: Ls)
    /\ iterates eps (N.to_nat max_iters) s1 (corpus_likelihood s1) st s' Ls
    /\ (max_iters = 0 -> st = Exhausted /\ s' = s1 /\ Ls = []).
Proof.
  intros Hok Hr. destruct (reachable_covered s Hr Hok) as [Hc _].
  destruct (run_settled max_iters eps s Hok Hc) as (st & s' & log & Hrun & _).
  unfold run in Hrun. destruct (initialize s) as [s1|] eqn:Hi; [|done].
  assert (spec_initialization s = Some s1) as Hi'.
  { unfold initialize in Hi. rewrite perform_iteration_tokens in Hi.
    unfold spec_initialization. by rewrite <- token_order_occurrences. }
  assert (idx_ s1 = idx_ s) as Hidx.
  { unfold initialize in Hi. rewrite perform_iteration_tokens in Hi.
    exact (tokens_idx _ _ _ _ Hi). }
  apply run_loop_iterates in Hrun as Hit; [|by rewrite Hidx].
  destruct Hit as (Ls & -> & Hit).
  exists s1, st, s', Ls. split; [done|].
  split; [by unfold run; rewrite Hi|]. split; [done|].
  intros ->. cbn in Hit. by inversion Hit.
Qed.

(** C4: [corpus_likelihood] returns
    K (lnG(V b) - V lnG(b)) + sum over topics t = 0 .. K-1 of
    [sum over documents d, sum over postings (w, c) of d, of
     c lnG(count_term(w,t) + b)] - lnG(count_topic(t) + V b),
    accumulated as a running sum in this order: topics outermost,
    documents in [docs()] order next, postings in [postings()] order
    innermost, the topic's lnG term subtracted after its postings. *)
Theorem corpus_likelihood_formula (s : lda_gibbs) :
  corpus_likelihood s = spec_likelihood s.
Proof.
  unfold corpus_likelihood, spec_likelihood, accumulate, corpus_postings.
  rewrite fold_left_fmap. cbn zeta.
  generalize (double_of_N (num_topics_ s)
              * (lgamma (double_of_N (num_words_ s) * beta_ s)
                 - double_of_N (num_words_ s) * lgamma (beta_ s)))%float.
  induction (seq 0 (N.to_nat (num_topics_ s))) as [|j l IH]; intros acc; cbn;
    [done|].
  rewrite IH. by rewrite fold_left_flat_map.
Qed.


(** C6: when topic_term_count[t][w], doc_topic_count[d][t] and
    topic_count[t] are all at least 1, [decrease_counts t w d] succeeds
    and [increase_counts t w d] after it gives back the sampler it
    started from: the three tables with the same keys and values. *)
Theorem decrease_increase_identity (t w d : N) (s : lda_gibbs) :
  1 <= stored_term s w t -> 1 <= stored_doc s d t -> 1 <= stored_topic s t ->
  exists s1,
    decrease_counts t w d s = Some s1 /\ increase_counts t w d s1 = s.
Proof.
  intros H1 H2 H3.
  destruct (decrease_counts_is_Some t w d s H1 H2 H3) as [s1 Hd].
  exists s1. split; [done|]. revert Hd. unfold decrease_counts.
  destruct (unbump2 t w (topic_term_count_ s)) as [m1|] eqn:E1; [|done].
  destruct (unbump2 d t (doc_topic_count_ s)) as [m2|] eqn:E2; [|done].
  destruct (unbump t (topic_count_ s)) as [m3|] eqn:E3; [|done].
  intros [= <-]. unfold increase_counts, set_counts; cbn.
  rewrite (bump2_unbump2 _ _ _ _ H1 E1), (bump2_unbump2 _ _ _ _ H2 E2),
    (bump_unbump _ _ _ H3 E3).
  by destruct s.
Qed.

(** C7: starting from tables that store no zero (the empty tables of a
    new sampler in particular), after every call of [increase_counts]
    or [decrease_counts] that returns, none of the three tables stores
    a zero. *)
Theorem sparse_after_calls (calls : list count_call) (s s' : lda_gibbs) :
  sparse s -> for_each count_call_run calls s = Some s' -> sparse s'.
Proof.
  intros Hs. apply (for_each_invariant count_call_run sparse); [|done].
  intros [t w d|t w d] s0 s1 _ H0; cbn.
  - intros [= <-]. by apply increase_counts_sparse.
  - by apply decrease_counts_sparse.
Qed.

(** C8 (amended): [sample_topic w d] hands the K weights
    p(0 | w, d), ..., p(K-1 | w, d), as computed, to the discrete
    distribution and returns the index it draws, the engine advanced;
    nothing else of the sampler changes.  All-zero weights get no
    treatment of their own. *)
Theorem sample_topic_draws_from_weights (w d : N) (s : lda_gibbs) :
  sample_topic w d s
  = let weights :=
      (fun j => compute_probability w d (N.of_nat j) s)
        <$> seq 0 (N.to_nat (num_topics_ s)) in
    ((discrete_distribution weights (rng_ s)).1,
     set_rng s (discrete_distribution weights (rng_ s)).2).
Proof.
  unfold sample_topic.
  assert (fill_weights w d s
          = (fun j => compute_probability w d (N.of_nat j) s)
              <$> seq 0 (N.to_nat (num_topics_ s))) as ->.
  { exact (fill_fold (fun j => compute_probability w d (N.of_nat j) s) []
             (N.to_nat (num_topics_ s))). }
  cbn zeta. by destruct (discrete_distribution _ (rng_ s)).
Qed.

(** C9 (amended): construction fails exactly when K = 0, V = 0 or
    D = 0 (the checks of the base-class constructor, taken from the
    specification); alpha and beta are stored as given, whatever their
    values. *)
Theorem lda_gibbs_new_fails_iff (idx : forward_index) (K : N)
    (alpha beta : float) (entropy : N) :
  (lda_gibbs_new idx K alpha beta entropy = None
   <-> K = 0 \/ num_terms idx = 0 \/ num_docs idx = 0)
  /\ forall s, lda_gibbs_new idx K alpha beta entropy = Some s ->
               alpha_ s = alpha /\ beta_ s = beta.
Proof.
  forget_library.
  unfold lda_gibbs_new, lda_model_new. split.
  - destruct (N.eqb_spec K 0), (N.eqb_spec (num_terms idx) 0),
      (N.eqb_spec (num_docs idx) 0); cbn; split; try done; try tauto.
  - destruct (_ || _); [done|]. by intros s [= <-].
Qed.

(** C10: [run] begins with the initialization sweep, which on every
    occurrence draws a topic, records it and increments the tables, and
    decrements or clears nothing.  So on a sampler whose first run has
    returned (the sum over topics of topic_count then being the corpus
    token count), the initialization sweep of a second run leaves that
    sum at twice the corpus token count, and so does the whole second
    run. *)
Theorem second_run_double_counts (n1 n2 : N) (eps1 eps2 : float)
    (s0 : lda_gibbs) :
  index_ok (idx_ s0) -> fresh s0 ->
  exists st1 s1 log1,
    run n1 eps1 s0 = Some (st1, s1, log1)
    /\ total_topic_count s1 = corpus_size (idx_ s0)
    /\ initialize s1 = for_each assign_token (occurrences (idx_ s1)) s1
    /\ (exists s2, initialize s1 = Some s2
                   /\ total_topic_count s2 = 2 * corpus_size (idx_ s0))
    /\ exists st3 s3 log3,
         run n2 eps2 s1 = Some (st3, s3, log3)
         /\ total_topic_count s3 = 2 * corpus_size (idx_ s0).
Proof.
  intros Hok Hf. destruct (fresh_initial s0 Hf) as (Hc & Hsp & Ht).
  destruct (run_settled n1 eps1 s0 Hok Hc)
    as (st1 & s1 & log1 & Hrun & (Hidx & Hc1 & _) & Hsp').
  destruct (Hsp' Hsp) as [Hsp1 Ht1]. rewrite Ht, N.add_0_l in Ht1.
  exists st1, s1, log1. split; [done|]. split; [done|].
  rewrite <- Hidx in Hok. split; [|split].
  - unfold initialize. rewrite perform_iteration_tokens.
    by rewrite token_order_occurrences.
  - destruct (initialize_settled s1 Hok Hc1) as (s2 & Hi & _ & Ht2 & _).
    exists s2. split; [done|]. rewrite Ht2, Ht1, Hidx. lia.
  - destruct (run_settled n2 eps2 s1 Hok Hc1)
      as (st3 & s3 & log3 & Hrun3 & _ & Hsp3).
    exists st3, s3, log3. split; [done|].
    destruct (Hsp3 Hsp1) as [_ Ht3]. rewrite Ht3, Ht1, Hidx. lia.
Qed.

(** * Further properties of the code *)

(** ** Notions *)

(** The members fixed at construction: index, K, V, alpha, beta. *)
Definition same_config (s s' : lda_gibbs) : Prop :=
  idx_ s' = idx_ s /\ num_topics_ s' = num_topics_ s
  /\ num_words_ s' = num_words_ s /\ alpha_ s' = alpha_ s
  /\ beta_ s' = beta_ s.

(** Sum of the counts stored under the outer key [k1]. *)
Definition row_sum (k1 : N) (m : gmap N (gmap N N)) : N :=
  table_sum (default ∅ (m !! k1)).

(** ** Invariants along sweeps and runs *)

Lemma sweep_invariant (P : lda_gibbs -> Prop) (idx : forward_index)
    (iter : N) (init : bool) (s s' : lda_gibbs) :
  (forall x s0 s1, x ∈ token_order idx -> idx_ s0 = idx -> P s0 ->
                   token_step init x s0 = Some s1 -> P s1) ->
  idx_ s = idx -> P s -> perform_iteration iter init s = Some s' ->
  idx_ s' = idx /\ P s'.
Proof.
  intros Hstep Hidx Hs. rewrite perform_iteration_tokens, Hidx.
  apply (for_each_invariant (token_step init)
           (fun s0 => idx_ s0 = idx /\ P s0)); [|done].
  intros x s0 s1 Hx [H0 HP] H1. split.
  - by rewrite (token_step_idx _ _ _ _ H1).
  - by apply (Hstep x s0).
Qed.

Lemma run_loop_invariant (P : lda_gibbs -> Prop) (idx : forward_index)
    (todo : nat) (i : N) (eps L : float) (s : lda_gibbs) (log : list float)
    (st : run_status) (s' : lda_gibbs) (log' : list float) :
  (forall x s0 s1, x ∈ token_order idx -> idx_ s0 = idx -> P s0 ->
                   token_step false x s0 = Some s1 -> P s1) ->
  idx_ s = idx -> P s ->
  run_loop todo i eps L s log = Some (st, s', log') -> idx_ s' = idx /\ P s'.
Proof.
  intros Hstep. revert i L s log.
  induction todo as [|todo IH]; intros i L s log Hidx Hs; cbn.
  - by intros [= _ <- _].
  - destruct (perform_iteration (i + 1) false s) as [s1|] eqn:H1; [|done].
    destruct (sweep_invariant P idx _ _ _ _ Hstep Hidx Hs H1) as [Hidx1 Hs1].
    destruct (abs _ <=? eps)%float; [by intros [= _ <- _] | by apply IH].
Qed.

Lemma run_invariant (P : lda_gibbs -> Prop) (idx : forward_index)
    (num_iters : N) (eps : float) (s : lda_gibbs) (st : run_status)
    (s' : lda_gibbs) (log : list float) :
  (forall init x s0 s1, x ∈ token_order idx -> idx_ s0 = idx -> P s0 ->
                        token_step init x s0 = Some s1 -> P s1) ->
  idx_ s = idx -> P s ->
  run num_iters eps s = Some (st, s', log) -> idx_ s' = idx /\ P s'.
Proof.
  intros Hstep Hidx Hs. unfold run.
  destruct (initialize s) as [s1|] eqn:H1; [|done].
  destruct (sweep_invariant P idx 0 true s s1 (Hstep true) Hidx Hs H1)
    as [Hidx1 Hs1].
  by apply (run_loop_invariant P idx); [apply Hstep| |].
Qed.

Lemma token_step_config (init : bool) (x : token) (s s' : lda_gibbs) :
  token_step init x s = Some s' -> same_config s s'.
Proof.
  destruct x as [[d n] w]. destruct init; cbn.
  - by intros (new & r & ->)%assign_token_effect.
  - intros (s1 & new & r & Hd & ->)%resample_token_effect.
    by rewrite (decrease_counts_state _ _ _ _ _ Hd).
Qed.

Lemma length_occurrences (idx : forward_index) :
  length (token_order idx) = length (occurrences idx).
Proof.
  unfold token_order, occurrences.
  induction (docs idx) as [|d ds IH]; cbn; [done|].
  rewrite !length_app, IH. unfold doc_tokens, doc_tokens_from.
  by rewrite !length_imap.
Qed.

Lemma token_order_nil (idx : forward_index) :
  occurrences idx = [] -> token_order idx = [].
Proof.
  intros H. apply length_zero_iff_nil. rewrite length_occurrences, H. done.
Qed.

(** ** The extras *)

(** X1: on tables that store no zero, [decrease_counts t w d] returns
    exactly when the three counters of (t, w, d) are at least 1; it
    throws ([at] on a missing key) as soon as one of them is 0. *)
Theorem decrease_counts_returns_iff (t w d : N) (s : lda_gibbs) :
  sparse s ->
  (is_Some (decrease_counts t w d s)
   <-> 1 <= stored_term s w t /\ 1 <= stored_doc s d t
       /\ 1 <= stored_topic s t).
Proof.
  intros Hsp. split.
  - intros [s' Hs']. exact (decrease_counts_found _ _ _ _ _ Hsp Hs').
  - intros (H1 & H2 & H3). by apply decrease_counts_is_Some.
Qed.

(** X2: the initialization sweep never throws, whatever the sampler
    and the index: it returns a sampler in which the sum over topics of
    topic_count has grown by the number of occurrences of the corpus,
    with index, K, V, alpha and beta as they were. *)
Theorem initialize_returns (s : lda_gibbs) :
  exists s',
    initialize s = Some s'
    /\ total_topic_count s'
       = total_topic_count s + N.of_nat (length (occurrences (idx_ s)))
    /\ same_config s s'.
Proof.
  destruct (assign_sweep_total (token_order (idx_ s)) s) as (s' & Hs & Ht & _).
  exists s'. unfold initialize. rewrite perform_iteration_tokens.
  split; [done|]. split; [by rewrite Ht, length_occurrences|].
  apply (for_each_invariant assign_token (same_config s) _ _ _) with (3 := Hs);
    [|done].
  intros x s0 s1 _ H0 H1. apply (token_step_config true) in H1.
  destruct H0 as (?&?&?&?&?), H1 as (?&?&?&?&?).
  repeat split; congruence.
Qed.

(** X3: an iteration on a sampler that was never initialized throws as
    soon as the corpus has an occurrence: the first [decrease_counts]
    finds no key. *)
Theorem perform_iteration_uninitialized (k : N) (s : lda_gibbs) :
  fresh s -> occurrences (idx_ s) <> [] ->
  perform_iteration k false s = None.
Proof.
  intros (H1 & _) Hne. rewrite perform_iteration_tokens.
  destruct (token_order (idx_ s)) as [|[[d n] w] l] eqn:Hl.
  - exfalso. apply Hne. apply length_zero_iff_nil.
    by rewrite <- length_occurrences, Hl.
  - cbn. unfold decrease_counts, unbump2. by rewrite H1, lookup_empty.
Qed.

(** X4: [run] never changes the index, K, V, alpha or beta. *)
Theorem run_keeps_config (num_iters : N) (eps : float) (s : lda_gibbs)
    (st : run_status) (s' : lda_gibbs) (log : list float) :
  run num_iters eps s = Some (st, s', log) -> same_config s s'.
Proof.
  intros Hrun.
  apply (run_invariant (same_config s) (idx_ s)) in Hrun as [_ H]; try done.
  intros init x s0 s1 _ _ H0 H1%token_step_config.
  destruct H0 as (?&?&?&?&?), H1 as (?&?&?&?&?).
  repeat split; congruence.
Qed.

(** X5: over a corpus without occurrences (no document, or only
    postings of frequency 0) [run] returns the sampler as it was. *)
Theorem run_empty_corpus (num_iters : N) (eps : float) (s : lda_gibbs) :
  occurrences (idx_ s) = [] ->
  exists st log, run num_iters eps s = Some (st, s, log).
Proof.
  intros He%token_order_nil. unfold run, initialize.
  rewrite perform_iteration_tokens, He. cbn [for_each].
  generalize [corpus_likelihood s]. generalize (corpus_likelihood s) at 1.
  generalize 0.
  induction (N.to_nat num_iters) as [|todo IH]; intros i L log; cbn; [eauto|].
  rewrite perform_iteration_tokens, He. cbn [for_each].
  destruct (_ <=? eps)%float; [eauto | apply IH].
Qed.

(** ** Counting and uncounting *)

Lemma unbump_bump (k : N) (m : gmap N N) :
  m !! k <> Some 0 -> unbump k (bump k m) = Some m.
Proof.
  intros Hk. unfold unbump, bump. rewrite lookup_insert_eq.
  destruct (m !! k) as [c|] eqn:Hc; cbn.
  - assert (c <> 0) by congruence.
    destruct (N.eqb_spec (c + 1) 1) as [E|_]; [lia|].
    rewrite insert_insert_eq. f_equal. apply insert_id.
    rewrite Hc. f_equal. lia.
  - f_equal. by apply delete_insert_id.
Qed.

Lemma unbump2_bump2 (k1 k2 : N) (m : gmap N (gmap N N)) :
  nonzero2 m ->
  unbump2 k1 k2 (bump2 k1 k2 m) = Some (<[k1 := default ∅ (m !! k1)]> m).
Proof.
  intros Hm. unfold unbump2, bump2. rewrite lookup_insert_eq.
  rewrite unbump_bump.
  - by rewrite insert_insert_eq.
  - destruct (m !! k1) as [inner|] eqn:Hk; cbn.
    + by apply (Hm k1 inner).
    + by rewrite lookup_empty.
Qed.

Lemma peek2_insert_default (k1 k1' k2' : N) (m : gmap N (gmap N N)) :
  peek2 k1' k2' (<[k1 := default ∅ (m !! k1)]> m) = peek2 k1' k2' m.
Proof.
  unfold peek2. destruct (decide (k1' = k1)) as [->|Hne].
  - rewrite lookup_insert_eq. destruct (m !! k1); cbn; [done|].
    unfold peek. by rewrite lookup_empty.
  - by rewrite lookup_insert_ne.
Qed.

(** X6: on tables that store no zero, [decrease_counts t w d] right
    after [increase_counts t w d] returns, and gives back every count
    and [topic_count_] itself; the nested tables come back with the
    outer keys t and d present, holding an empty map when they were
    absent before: an outer key is never erased. *)
Theorem increase_decrease_round_trip (t w d : N) (s : lda_gibbs) :
  sparse s ->
  decrease_counts t w d (increase_counts t w d s)
  = Some (set_counts s
            (<[t := default ∅ (topic_term_count_ s !! t)]> (topic_term_count_ s))
            (<[d := default ∅ (doc_topic_count_ s !! d)]> (doc_topic_count_ s))
            (topic_count_ s))
  /\ forall s', decrease_counts t w d (increase_counts t w d s) = Some s' ->
       (forall w' t', stored_term s' w' t' = stored_term s w' t')
       /\ (forall d' t', stored_doc s' d' t' = stored_doc s d' t')
       /\ (forall t', stored_topic s' t' = stored_topic s t').
Proof.
  intros (H1 & H2 & H3).
  assert (decrease_counts t w d (increase_counts t w d s)
          = Some (set_counts s
            (<[t := default ∅ (topic_term_count_ s !! t)]> (topic_term_count_ s))
            (<[d := default ∅ (doc_topic_count_ s !! d)]> (doc_topic_count_ s))
            (topic_count_ s))) as E.
  { unfold decrease_counts, increase_counts; cbn.
    rewrite (unbump2_bump2 _ _ _ H1), (unbump2_bump2 _ _ _ H2).
    by rewrite (unbump_bump _ _ (H3 t)). }
  split; [done|]. intros s'. rewrite E. intros [= <-].
  unfold stored_term, stored_doc, stored_topic; cbn.
  repeat split; intros; by rewrite ?peek2_insert_default.
Qed.

(** ** The loop of [run]: how many iterations *)

Lemma run_loop_length (todo : nat) (i : N) (eps L : float) (s : lda_gibbs)
    (log : list float) (st : run_status) (s' : lda_gibbs) (log' : list float) :
  run_loop todo i eps L s log = Some (st, s', log') ->
  (length log <= length log' <= length log + todo)%nat
  /\ (st = Exhausted -> length log' = (length log + todo)%nat)
  /\ (st = Converged -> (length log < length log')%nat).
Proof.
  revert i L s log. induction todo as [|todo IH]; intros i L s log; cbn.
  - intros [= <- <- <-]. repeat split; try lia; done.
  - destruct (perform_iteration (i + 1) false s) as [s1|]; [|done].
    destruct (_ <=? eps)%float.
    + intros [= <- <- <-]. rewrite length_app; cbn.
      repeat split; try lia; done.
    + intros (Ha & Hb & Hc)%IH. rewrite length_app in *; cbn in *.
      split; [lia|]. split.
      * intros E. rewrite (Hb E). lia.
      * intros E. specialize (Hc E). lia.
Qed.

(** X7: when [run] returns it has reported between 1 and
    1 + num_iters log-likelihoods (the first one after initialization,
    then one per iteration); it left its loop by the loop condition
    only after num_iters iterations, and by [break] only after at least
    one iteration. *)
Theorem run_iteration_count (num_iters : N) (eps : float) (s : lda_gibbs)
    (st : run_status) (s' : lda_gibbs) (log : list float) :
  run num_iters eps s = Some (st, s', log) ->
  (1 <= length log <= 1 + N.to_nat num_iters)%nat
  /\ (st = Exhausted -> length log = (1 + N.to_nat num_iters)%nat)
  /\ (st = Converged -> (2 <= length log)%nat).
Proof.
  unfold run. destruct (initialize s) as [s1|]; [|done].
  intros H%run_loop_length. cbn in H. exact H.
Qed.

(** ** The convergence test on doubles *)

Lemma SFleb_abs_nonneg (x e : spec_float) :
  SFleb (SFabs x) e = true -> SFleb (S754_zero false) e = true.
Proof.
  destruct e as [se|se| |se me ee]; destruct x as [sx|sx| |sx mx ex];
    try destruct se; try reflexivity; try discriminate.
Qed.

Lemma ratio_leb_nonneg (L L' eps : float) :
  (abs ((L - L') / L) <=? eps)%float = true -> (0 <=? eps)%float = true.
Proof.
  rewrite !leb_spec, abs_spec. apply SFleb_abs_nonneg.
Qed.

Lemma run_loop_never_converges (todo : nat) (i : N) (eps L : float)
    (s : lda_gibbs) (log : list float) (st : run_status) (s' : lda_gibbs)
    (log' : list float) :
  (0 <=? eps)%float = false ->
  run_loop todo i eps L s log = Some (st, s', log') -> st = Exhausted.
Proof.
  intros He. revert i L s log.
  induction todo as [|todo IH]; intros i L s log; cbn.
  - by intros [= <- _ _].
  - destruct (perform_iteration (i + 1) false s) as [s1|]; [|done].
    destruct (abs _ <=? eps)%float eqn:Hr; [|apply IH].
    apply ratio_leb_nonneg in Hr. congruence.
Qed.

(** X8: with a convergence threshold that is negative or not a number
    ([0 <= convergence] is false) the test [ratio <= convergence] never
    holds: when [run] returns, it has run all num_iters iterations. *)
Theorem run_negative_threshold (num_iters : N) (eps : float) (s : lda_gibbs)
    (st : run_status) (s' : lda_gibbs) (log : list float) :
  (0 <=? eps)%float = false ->
  run num_iters eps s = Some (st, s', log) ->
  st = Exhausted /\ length log = (1 + N.to_nat num_iters)%nat.
Proof.
  intros He Hrun. assert (st = Exhausted) as ->.
  { unfold run in Hrun. destruct (initialize s) as [s1|]; [|done].
    exact (run_loop_never_converges _ _ _ _ _ _ _ _ _ He Hrun). }
  split; [done|]. unfold run in Hrun.
  destruct (initialize s) as [s1|]; [|done].
  apply run_loop_length in Hrun as (_ & Hb & _). by rewrite (Hb eq_refl).
Qed.

(** ** Row sums of the nested tables *)

Lemma row_sum_bump2 (k k1 k2 : N) (m : gmap N (gmap N N)) :
  row_sum k (bump2 k1 k2 m) = row_sum k m + ind (k = k1).
Proof.
  unfold row_sum, bump2, ind. destruct (decide (k = k1)) as [->|Hne].
  - rewrite lookup_insert_eq. cbn. apply table_sum_bump.
  - rewrite lookup_insert_ne by done. lia.
Qed.

Lemma row_sum_unbump2 (k k1 k2 : N) (m m' : gmap N (gmap N N)) :
  1 <= peek2 k1 k2 m -> unbump2 k1 k2 m = Some m' ->
  row_sum k m' + ind (k = k1) = row_sum k m.
Proof.
  unfold row_sum, unbump2, peek2, ind.
  destruct (m !! k1) as [inner|] eqn:Hk; [|done].
  destruct (unbump k2 inner) as [inner'|] eqn:Hu; [|done].
  intros Hc [= <-]. destruct (decide (k = k1)) as [->|Hne].
  - rewrite lookup_insert_eq, Hk. cbn. by apply table_sum_unbump with k2.
  - rewrite lookup_insert_ne by done. lia.
Qed.

(** Every topic's row of [topic_term_count_] sums to its [topic_count_]. *)
Definition rows_agree (s : lda_gibbs) : Prop :=
  forall t, row_sum t (topic_term_count_ s) = stored_topic s t.

Lemma token_step_rows_agree (init : bool) (x : token) (s s' : lda_gibbs) :
  sparse s /\ rows_agree s -> token_step init x s = Some s' ->
  sparse s' /\ rows_agree s'.
Proof.
  intros [Hsp Hr] Hs. split; [exact (token_step_sparse _ _ _ _ Hsp Hs)|].
  destruct x as [[d n] w]. destruct init; cbn in Hs.
  - apply assign_token_effect in Hs as (new & r & ->). intros t.
    unfold stored_topic; cbn. rewrite row_sum_bump2, peek_bump.
    specialize (Hr t). unfold stored_topic, ind in *. lia.
  - apply resample_token_effect in Hs as (s1 & new & r & Hd & ->). intros t.
    destruct (decrease_counts_found _ _ _ _ _ Hsp Hd) as (F1 & _ & F3).
    unfold stored_topic; cbn. rewrite row_sum_bump2, peek_bump.
    revert Hd. unfold decrease_counts.
    destruct (unbump2 _ w (topic_term_count_ s)) as [m1|] eqn:E1; [|done].
    destruct (unbump2 d _ (doc_topic_count_ s)) as [m2|] eqn:E2; [|done].
    destruct (unbump _ (topic_count_ s)) as [m3|] eqn:E3; [|done].
    intros [= <-]; cbn.
    pose proof (row_sum_unbump2 t _ _ _ _ F1 E1) as R1.
    pose proof (peek_unbump _ t _ _ E3) as R3.
    specialize (Hr t). unfold stored_topic, stored_term, ind in *.
    rewrite R3. repeat case_decide; subst; lia.
Qed.

Lemma reachable_rows_agree (s : lda_gibbs) :
  reachable s -> sparse s /\ rows_agree s.
Proof.
  induction 1 as [idx K a b e s Hnew | s n eps st s' log Hr IH Hrun].
  - apply lda_gibbs_new_fresh in Hnew as [Hf _].
    destruct (fresh_initial s Hf) as (_ & Hsp & _). split; [done|].
    intros t. destruct Hf as (H1 & _ & H3 & _).
    unfold row_sum, stored_topic, peek. rewrite H1, H3, !lookup_empty. cbn.
    apply table_sum_empty.
  - apply (run_invariant (fun s0 => sparse s0 /\ rows_agree s0) (idx_ s))
      in Hrun as [_ H]; try done.
    intros init x s0 s1 _ _. apply token_step_rows_agree.
Qed.

(** X9: on every sampler a program can hold (constructed, then run any
    number of times), for every topic t the counts of
    [topic_term_count_[t]] sum to [topic_count_[t]] (0 when t is not
    stored). *)
Theorem topic_rows_sum_to_topic_count (s : lda_gibbs) :
  reachable s ->
  forall t, row_sum t (topic_term_count_ s) = stored_topic s t.
Proof. intros Hr. by destruct (reachable_rows_agree s Hr). Qed.

(** ** Document rows *)

Lemma tally_app (P : token -> Prop) `{!forall x, Decision (P x)}
    (l1 l2 : list token) :
  tally P (l1 ++ l2) = tally P l1 + tally P l2.
Proof. induction l1 as [|x l1 IH]; cbn; [done|]. rewrite IH. lia. Qed.

Lemma tally_all (P : token -> Prop) `{!forall x, Decision (P x)}
    (l : list token) :
  (forall x, x ∈ l -> P x) -> tally P l = N.of_nat (length l).
Proof.
  induction l as [|x l IH]; intros HP; cbn [tally length]; [done|].
  rewrite IH by (intros y Hy; apply HP; by right).
  rewrite ind_true by (apply HP; by left). lia.
Qed.

Lemma tally_none_in (P : token -> Prop) `{!forall x, Decision (P x)}
    (l : list token) :
  (forall x, x ∈ l -> ~ P x) -> tally P l = 0.
Proof.
  induction l as [|x l IH]; intros HP; cbn; [done|].
  rewrite IH by (intros y Hy; apply HP; by right).
  unfold ind. rewrite decide_False by (apply HP; by left). done.
Qed.

Lemma doc_tokens_in_doc (idx : forward_index) (d : N) (x : token) :
  x ∈ doc_tokens idx d -> x.1.1 = d.
Proof.
  intros Hx. apply (doc_tokens_doc idx d (x.1)).
  by apply list_elem_of_fmap_2.
Qed.

(** Occurrences of document [d] in the token order. *)
Lemma tally_doc (idx : forward_index) (d : N) :
  NoDup (docs idx) ->
  tally (fun x => x.1.1 = d) (token_order idx)
  = if decide (d ∈ docs idx) then posting_total idx d else 0.
Proof.
  unfold token_order. induction (docs idx) as [|d' ds IH]; intros Hnd; cbn.
  - rewrite decide_False; [done|]. by intros ?%elem_of_nil.
  - apply NoDup_cons in Hnd as [Hd' Hnd]. rewrite tally_app, IH by done.
    destruct (decide (d = d')) as [->|Hne].
    + rewrite tally_all by apply doc_tokens_in_doc.
      rewrite length_doc_tokens.
      rewrite (decide_False (P := d' ∈ ds)) by done.
      rewrite decide_True by (by left). lia.
    + rewrite tally_none_in
        by (intros x Hx%doc_tokens_in_doc; congruence).
      destruct (decide (d ∈ ds)) as [Hin|Hnin].
      * rewrite decide_True by (by right). lia.
      * rewrite decide_False; [lia|].
        intros [?|?]%elem_of_cons; [congruence | done].
Qed.

Lemma assign_token_doc_row (x : token) (s s' : lda_gibbs) (d : N) :
  assign_token x s = Some s' ->
  row_sum d (doc_topic_count_ s')
  = row_sum d (doc_topic_count_ s) + ind (x.1.1 = d).
Proof.
  destruct x as [[d0 n] w]. intros (new & r & ->)%assign_token_effect. cbn.
  rewrite row_sum_bump2. apply f_equal, ind_iff. split; congruence.
Qed.

Lemma resample_token_doc_row (x : token) (s s' : lda_gibbs) (d : N) :
  sparse s -> resample_token x s = Some s' ->
  row_sum d (doc_topic_count_ s') = row_sum d (doc_topic_count_ s).
Proof.
  destruct x as [[d0 n] w].
  intros Hsp (s1 & new & r & Hd & ->)%resample_token_effect. cbn.
  destruct (decrease_counts_found _ _ _ _ _ Hsp Hd) as (_ & F2 & _).
  rewrite row_sum_bump2. revert Hd. unfold decrease_counts.
  destruct (unbump2 _ w (topic_term_count_ s)) as [m1|] eqn:E1; [|done].
  destruct (unbump2 d0 _ (doc_topic_count_ s)) as [m2|] eqn:E2; [|done].
  destruct (unbump _ (topic_count_ s)) as [m3|] eqn:E3; [|done].
  intros [= <-]; cbn.
  pose proof (row_sum_unbump2 d _ _ _ _ F2 E2) as R2. lia.
Qed.

Lemma assign_sweep_doc_rows (l : list token) (s s' : lda_gibbs) (d : N) :
  for_each assign_token l s = Some s' ->
  row_sum d (doc_topic_count_ s')
  = row_sum d (doc_topic_count_ s) + tally (fun x => x.1.1 = d) l.
Proof.
  revert s. induction l as [|x l IH]; intros s; cbn.
  - intros [= <-]. lia.
  - destruct (assign_token x s) as [s1|] eqn:H1; [|done].
    intros H'%IH. rewrite H', (assign_token_doc_row _ _ _ _ H1). lia.
Qed.

(** X10: after a first [run] on a new sampler, over an index that keeps
    its contract, the counts of [doc_topic_count_[d]] sum to
    [doc_size(d)] for every document d of the index: the denominator
    [count_doc(doc)], read from the index, is the sum of the
    document's row. *)
Theorem doc_rows_sum_to_doc_size (num_iters : N) (eps : float)
    (s0 : lda_gibbs) :
  index_ok (idx_ s0) -> fresh s0 ->
  exists st s1 log,
    run num_iters eps s0 = Some (st, s1, log)
    /\ forall d, d ∈ docs (idx_ s0) ->
         row_sum d (doc_topic_count_ s1) = doc_size (idx_ s0) d.
Proof.
  intros Hok Hf. destruct (fresh_initial s0 Hf) as (Hc & Hsp & _).
  destruct (run_settled num_iters eps s0 Hok Hc)
    as (st & s1 & log & Hrun & _ & _).
  exists st, s1, log. split; [done|]. intros d Hd.
  unfold run in Hrun. destruct (initialize s0) as [si|] eqn:Hi; [|done].
  unfold initialize in Hi. rewrite perform_iteration_tokens in Hi.
  cbn [token_step] in Hi.
  pose proof (assign_sweep_doc_rows _ _ _ d Hi) as Hrow.
  destruct (assign_sweep_total (token_order (idx_ s0)) s0)
    as (si' & Hi' & _ & Hspi).
  rewrite Hi in Hi'. injection Hi' as <-.
  assert (idx_ s1 = idx_ s0
          /\ sparse s1
             /\ row_sum d (doc_topic_count_ s1)
                = row_sum d (doc_topic_count_ si)) as (_ & _ & Hfin).
  { eapply (run_loop_invariant
              (fun s => sparse s
                        /\ row_sum d (doc_topic_count_ s)
                           = row_sum d (doc_topic_count_ si))
              (idx_ s0)); [| | |exact Hrun].
    - intros x s2 s3 _ _ [Hsp2 Hr2] H3. split.
      + exact (token_step_sparse false _ _ _ Hsp2 H3).
      + by rewrite (resample_token_doc_row _ _ _ _ Hsp2 H3).
    - exact (tokens_idx true _ _ _ Hi).
    - split; [by apply Hspi | done]. }
  rewrite Hfin, Hrow. destruct Hf as (_ & H2 & _). destruct Hok as [Hnd Hsz].
  rewrite tally_doc, decide_True by done.
  unfold row_sum. rewrite H2, lookup_empty. cbn. rewrite table_sum_empty.
  rewrite Forall_forall in Hsz. destruct (Hsz d Hd) as [-> _]. lia.
Qed.

(** ** The counters are the numbers of occurrences assigned *)

(** On the list [l] of occurrences every counter is the number of
    occurrences currently assigned to it. *)
Definition exact_on (l : list token) (s : lda_gibbs) : Prop :=
  (forall t w, stored_term s w t
               = tally (fun x => assigned s x = Some t /\ x.2 = w) l)
  /\ (forall d t, stored_doc s d t
                  = tally (fun x => assigned s x = Some t /\ x.1.1 = d) l)
  /\ (forall t, stored_topic s t
                = tally (fun x => assigned s x = Some t /\ True) l).

Lemma assigned_after_step (d n w new : N) (s : lda_gibbs) (r : rng_t)
    (y : token) :
  assigned (increase_counts new w d (dwt_assign d n new (set_rng s r))) y
  = if decide (y.1 = (d, n)) then Some new else assigned s y.
Proof.
  change (assigned (increase_counts new w d
            (dwt_assign d n new (set_rng s r))) y)
    with (assigned (dwt_assign d n new (set_rng s r)) y).
  by rewrite assigned_dwt_assign.
Qed.

Lemma tally_assigned_step (Q : token -> Prop) `{!forall y, Decision (Q y)}
    (t new : N) (l : list token) (x0 : token) (s s' : lda_gibbs) :
  NoDup (fst <$> l) -> x0 ∈ l ->
  (forall y, assigned s' y
             = if decide (y.1 = x0.1) then Some new else assigned s y) ->
  tally (fun y => assigned s' y = Some t /\ Q y) l
    + ind (assigned s x0 = Some t /\ Q x0)
  = tally (fun y => assigned s y = Some t /\ Q y) l + ind (t = new /\ Q x0)
  /\ ind (assigned s x0 = Some t /\ Q x0)
     <= tally (fun y => assigned s y = Some t /\ Q y) l.
Proof.
  forget_library.
  intros Hnd Hx Ha.
  destruct (tally_change (fun y => assigned s y = Some t /\ Q y)
              (fun y => assigned s' y = Some t /\ Q y) l x0 Hnd Hx)
    as [T1 T2].
  { intros y _ Hy. rewrite Ha. by rewrite decide_False. }
  rewrite Ha, decide_True in T1 by done.
  rewrite (ind_iff (Some new = Some t /\ Q x0) (t = new /\ Q x0)) in T1
    by intuition congruence.
  done.
Qed.

Lemma exact_assign (l : list token) (x : token) (s s' : lda_gibbs) :
  NoDup (fst <$> l) -> x ∈ l -> exact_on l s -> assigned s x = None ->
  assign_token x s = Some s' -> exact_on l s'.
Proof.
  forget_library.
  intros Hnd Hx (C1 & C2 & C3) Hnone Hs. destruct x as [[d n] w].
  apply assign_token_effect in Hs as (new & r & ->).
  destruct (increase_counts_stored new w d (dwt_assign d n new (set_rng s r)))
    as (S1 & S2 & S3).
  assert (forall (Q : token -> Prop) `{!forall y, Decision (Q y)} t,
    tally (fun y => assigned (increase_counts new w d
                      (dwt_assign d n new (set_rng s r))) y = Some t /\ Q y) l
    = tally (fun y => assigned s y = Some t /\ Q y) l
      + ind (t = new /\ Q (d, n, w))) as T.
  { intros Q HQ t.
    destruct (tally_assigned_step Q t new l (d, n, w) s
                (increase_counts new w d (dwt_assign d n new (set_rng s r)))
                Hnd Hx) as [T1 _].
    { intros y. apply assigned_after_step. }
    rewrite Hnone in T1. unfold ind at 1 in T1.
    rewrite decide_False in T1 by (by intros [? _]). lia. }
  repeat split.
  - intros t w'. rewrite S1, (T (fun y => y.2 = w') _ t). cbn.
    change (stored_term (dwt_assign d n new (set_rng s r)) w' t)
      with (stored_term s w' t).
    rewrite C1. f_equal. apply ind_iff. intuition congruence.
  - intros d' t. rewrite S2, (T (fun y => y.1.1 = d') _ t). cbn.
    change (stored_doc (dwt_assign d n new (set_rng s r)) d' t)
      with (stored_doc s d' t).
    rewrite C2. f_equal. apply ind_iff. intuition congruence.
  - intros t. rewrite S3, (T (fun y => True) _ t).
    change (stored_topic (dwt_assign d n new (set_rng s r)) t)
      with (stored_topic s t).
    rewrite C3. f_equal. apply ind_iff. intuition congruence.
Qed.

Lemma exact_resample (l : list token) (x : token) (s s' : lda_gibbs) :
  NoDup (fst <$> l) -> x ∈ l -> exact_on l s -> is_Some (assigned s x) ->
  resample_token x s = Some s' -> exact_on l s'.
Proof.
  forget_library.
  intros Hnd Hx (C1 & C2 & C3) [old Hold] Hs. destruct x as [[d n] w].
  pose proof (dwt_read_assigned _ _ _ _ _ Hold) as Hread.
  apply resample_token_effect in Hs as (s1 & new & r & Hd & ->).
  rewrite Hread in Hd.
  destruct (decrease_counts_stored _ _ _ _ _ Hd) as (D1 & D2 & D3).
  destruct (increase_counts_stored new w d (dwt_assign d n new (set_rng s1 r)))
    as (S1 & S2 & S3).
  assert (doc_word_topic_ s1 = doc_word_topic_ s) as Hdwt.
  { by rewrite (decrease_counts_state _ _ _ _ _ Hd). }
  assert (forall (Q : token -> Prop) `{!forall y, Decision (Q y)} t,
    tally (fun y => assigned (increase_counts new w d
                      (dwt_assign d n new (set_rng s1 r))) y = Some t /\ Q y) l
      + ind (t = old /\ Q (d, n, w))
    = tally (fun y => assigned s y = Some t /\ Q y) l
      + ind (t = new /\ Q (d, n, w))
    /\ ind (t = old /\ Q (d, n, w))
       <= tally (fun y => assigned s y = Some t /\ Q y) l) as T.
  { intros Q HQ t.
    destruct (tally_assigned_step Q t new l (d, n, w) s
                (increase_counts new w d (dwt_assign d n new (set_rng s1 r)))
                Hnd Hx) as [T1 T2].
    { intros y. rewrite assigned_after_step. cbn [fst].
      destruct (decide (y.1 = (d, n))); [done|].
      unfold assigned; cbn. by rewrite Hdwt. }
    rewrite Hold in T1, T2.
    rewrite (ind_iff (Some old = Some t /\ Q (d, n, w))
               (t = old /\ Q (d, n, w))) in T1, T2 by intuition congruence.
    done. }
  repeat split.
  - intros t w'. rewrite S1. destruct (T (fun y => y.2 = w') _ t) as [T1 T2].
    specialize (C1 t w'). cbn in T1, T2.
    rewrite (ind_iff (t = new /\ w = w') (t = new /\ w' = w)) in T1
      by intuition congruence.
    rewrite (ind_iff (t = old /\ w = w') (t = old /\ w' = w)) in T1, T2
      by intuition congruence.
    change (stored_term (dwt_assign d n new (set_rng s1 r)) w' t)
      with (stored_term s1 w' t). rewrite D1. lia.
  - intros d' t. rewrite S2. destruct (T (fun y => y.1.1 = d') _ t) as [T1 T2].
    specialize (C2 d' t). cbn in T1, T2.
    rewrite (ind_iff (t = new /\ d = d') (d' = d /\ t = new)) in T1
      by intuition congruence.
    rewrite (ind_iff (t = old /\ d = d') (d' = d /\ t = old)) in T1, T2
      by intuition congruence.
    change (stored_doc (dwt_assign d n new (set_rng s1 r)) d' t)
      with (stored_doc s1 d' t). rewrite D2. lia.
  - intros t. rewrite S3. destruct (T (fun y => True) _ t) as [T1 T2].
    specialize (C3 t). cbn in T1, T2.
    rewrite (ind_iff (t = new /\ True) (t = new)) in T1 by intuition congruence.
    rewrite (ind_iff (t = old /\ True) (t = old)) in T1, T2
      by intuition congruence.
    change (stored_topic (dwt_assign d n new (set_rng s1 r)) t)
      with (stored_topic s1 t). rewrite D3. lia.
Qed.

Lemma assign_sweep_exact (all l : list token) (s s' : lda_gibbs) :
  NoDup (fst <$> all) -> l ⊆ all -> NoDup (fst <$> l) ->
  exact_on all s -> (forall y, y ∈ l -> assigned s y = None) ->
  for_each assign_token l s = Some s' -> exact_on all s'.
Proof.
  intros Hall. revert s.
  induction l as [|x l IH]; intros s Hl Hnd He Hnone; cbn.
  - by intros [= <-].
  - destruct (assign_token x s) as [s1|] eqn:H1; [|done].
    cbn in Hnd. apply NoDup_cons in Hnd as [Hx Hnd].
    apply IH; [| done | |].
    + intros y Hy. apply Hl. by right.
    + apply (exact_assign all x s); [done | | done | | done].
      * apply Hl. by left.
      * apply Hnone. by left.
    + intros y Hy. destruct x as [[d n] w].
      destruct (token_step_assignment true _ _ _ _ _ H1) as [new Ha].
      rewrite Ha, decide_False; [apply Hnone; by right|].
      intros E. apply Hx. cbn. rewrite <- E. by apply list_elem_of_fmap_2.
Qed.

Lemma fresh_exact (l : list token) (s : lda_gibbs) :
  fresh s -> exact_on l s /\ forall y, assigned s y = None.
Proof.
  intros (H1 & H2 & H3 & H4).
  assert (forall x, assigned s x = None) as Hnone.
  { intros x. unfold assigned. by rewrite H4, lookup_empty. }
  split; [|done].
  unfold exact_on, stored_term, stored_doc, stored_topic, peek2, peek.
  rewrite H1, H2, H3.
  repeat split; intros; rewrite lookup_empty, tally_none; try done;
    intros x [Hx _]; by rewrite Hnone in Hx.
Qed.

(** X11: after a first [run] on a new sampler, over an index that keeps
    its contract, every occurrence of the corpus has an assignment and
    the tables are exactly the counts of the assignments:
    [topic_count_[t]] is the number of occurrences assigned to t,
    [topic_term_count_[t][w]] the number of those of term w, and
    [doc_topic_count_[d][t]] the number of those in document d (a
    counter reads 0 where none is stored). *)
Theorem counts_are_assignment_counts (num_iters : N) (eps : float)
    (s0 : lda_gibbs) :
  index_ok (idx_ s0) -> fresh s0 ->
  exists st s1 log,
    run num_iters eps s0 = Some (st, s1, log)
    /\ (forall x, x ∈ occurrences (idx_ s0) -> is_Some (assigned s1 x))
    /\ (forall t, stored_topic s1 t
                  = tally (fun x => assigned s1 x = Some t)
                      (occurrences (idx_ s0)))
    /\ (forall t w, stored_term s1 w t
                    = tally (fun x => assigned s1 x = Some t /\ x.2 = w)
                        (occurrences (idx_ s0)))
    /\ (forall d t, stored_doc s1 d t
                    = tally (fun x => assigned s1 x = Some t /\ x.1.1 = d)
                        (occurrences (idx_ s0))).
Proof.
  intros Hok Hf. destruct (fresh_initial s0 Hf) as (Hc & Hsp & _).
  destruct (run_settled num_iters eps s0 Hok Hc)
    as (st & s1 & log & Hrun & (Hidx & _ & Hall) & _).
  exists st, s1, log. split; [done|].
  pose proof (token_order_NoDup _ Hok) as Hnd.
  rewrite <- (token_order_occurrences _ Hok).
  split; [by rewrite <- Hidx|].
  assert (exact_on (token_order (idx_ s0)) s1) as (E1 & E2 & E3).
  { unfold run in Hrun. destruct (initialize s0) as [si|] eqn:Hi; [|done].
    unfold initialize in Hi. rewrite perform_iteration_tokens in Hi.
    cbn [token_step] in Hi.
    destruct (fresh_exact (token_order (idx_ s0)) s0 Hf) as [He0 Hnone].
    pose proof (assign_sweep_exact _ _ _ _ Hnd (reflexivity _) Hnd He0
                  (fun y _ => Hnone y) Hi) as Hei.
    destruct (assign_sweep_covered (token_order (idx_ s0)) s0 (idx_ s0))
      with (s' := si) as (_ & Halli & _); try done.
    assert (idx_ s1 = idx_ s0
            /\ exact_on (token_order (idx_ s0)) s1
               /\ forall y, y ∈ token_order (idx_ s0) ->
                            is_Some (assigned s1 y)) as (_ & He1 & _);
      [|done].
    eapply (run_loop_invariant
              (fun s => exact_on (token_order (idx_ s0)) s
                        /\ forall y, y ∈ token_order (idx_ s0) ->
                                     is_Some (assigned s y))
              (idx_ s0)); [| | |exact Hrun].
    - intros x s2 s3 Hx _ [He2 Ha2] H3. split.
      + apply (exact_resample _ x s2); try done. by apply Ha2.
      + intros y Hy. by apply (token_step_assigned false _ _ _ H3), Ha2.
    - exact (tokens_idx true _ _ _ Hi).
    - done. }
  split; [|split; [done | done]].
  intros t. rewrite E3. apply tally_ext.
  intros x _. split; [by intros [? _] | done].
Qed.

(** ** Which entries [doc_word_topic_] has *)

(** The entries of [doc_word_topic_] lie at keys of the token order. *)
Definition keys_within (idx : forward_index) (s : lda_gibbs) : Prop :=
  forall x, is_Some (assigned s x) -> x.1 ∈ fst <$> token_order idx.

Lemma token_step_keys_within (idx : forward_index) (init : bool) (x : token)
    (s s' : lda_gibbs) :
  x ∈ token_order idx -> keys_within idx s ->
  token_step init x s = Some s' -> keys_within idx s'.
Proof.
  intros Hx Hk Hs. destruct x as [[d n] w].
  destruct (token_step_assignment _ _ _ _ _ _ Hs) as [new Ha].
  intros y. rewrite Ha. case_decide as Hy; [|apply Hk].
  intros _. rewrite Hy. by apply (list_elem_of_fmap_2 fst) in Hx.
Qed.

Lemma reachable_keys_within (s : lda_gibbs) :
  reachable s -> keys_within (idx_ s) s.
Proof.
  induction 1 as [idx K a b e s Hnew | s n eps st s' log Hr IH Hrun].
  - apply lda_gibbs_new_fresh in Hnew as [(_ & _ & _ & H4) _].
    intros x [t Hx]. unfold assigned in Hx.
    by rewrite H4, lookup_empty in Hx.
  - apply (run_invariant (keys_within (idx_ s)) (idx_ s)) in Hrun
      as [Hidx H]; try done.
    + by rewrite Hidx.
    + intros init x s0 s1 Hx _. by apply token_step_keys_within.
Qed.

Lemma elem_of_flat_map_keys (f : N -> list token) (ds : list N) (k : N * N) :
  k ∈ fst <$> flat_map f ds <-> exists d, d ∈ ds /\ k ∈ fst <$> f d.
Proof.
  induction ds as [|d ds IH]; cbn.
  - split; [by intros ?%elem_of_nil | by intros (d & ?%elem_of_nil & _)].
  - rewrite fmap_app, elem_of_app, IH. split.
    + intros [H|(d' & Hd' & H)].
      * exists d. split; [by left | done].
      * exists d'. split; [by right | done].
    + intros (d' & [->|Hd']%elem_of_cons & H); [by left|].
      right. by exists d'.
Qed.

(** Under the index contract the keys of the token order are the pairs
    (d, n) with d a document of the index and n below [doc_size(d)]. *)
Lemma token_keys (idx : forward_index) (d n : N) :
  index_ok idx ->
  ((d, n) ∈ fst <$> token_order idx
   <-> d ∈ docs idx /\ n < doc_size idx d).
Proof.
  intros [_ Hsz]. rewrite Forall_forall in Hsz.
  unfold token_order. rewrite elem_of_flat_map_keys.
  pose proof (length_doc_terms idx) as Hlen. split.
  - intros (d' & Hd' & Hk). pose proof (doc_tokens_doc _ _ _ Hk) as E.
    cbn in E. subst d'. split; [done|].
    destruct (Hsz d Hd') as [Hd Hlt]. specialize (Hlen d).
    unfold doc_tokens in Hk. rewrite doc_tokens_from_keys in Hk.
    apply list_elem_of_fmap in Hk as (q & [= ->] & Hq%elem_of_seq).
    unfold wrap64. rewrite N.mod_small by lia. lia.
  - intros [Hd Hn]. exists d. split; [done|].
    destruct (Hsz d Hd) as [Hd' Hlt]. specialize (Hlen d).
    unfold doc_tokens. rewrite doc_tokens_from_keys.
    apply list_elem_of_fmap. exists (N.to_nat n). split.
    + unfold wrap64. rewrite N2Nat.id, N.mod_small by lia. done.
    + apply elem_of_seq. lia.
Qed.

(** X12: after [run] has returned, on any sampler a program can hold
    and over an index that keeps its contract, [doc_word_topic_] has an
    entry at (d, n) exactly when d is a document of the index and
    n < doc_size(d): one entry per occurrence, none besides. *)
Theorem doc_word_topic_entries (num_iters : N) (eps : float) (s : lda_gibbs) :
  index_ok (idx_ s) -> reachable s ->
  exists st s' log,
    run num_iters eps s = Some (st, s', log)
    /\ forall d n,
         is_Some (default ∅ (doc_word_topic_ s' !! d) !! n)
         <-> d ∈ docs (idx_ s) /\ n < doc_size (idx_ s) d.
Proof.
  intros Hok Hr. destruct (reachable_covered s Hr Hok) as [Hc _].
  destruct (run_settled num_iters eps s Hok Hc)
    as (st & s' & log & Hrun & (Hidx & _ & Hall) & _).
  exists st, s', log. split; [done|]. intros d n.
  pose proof (reachable_keys_within s'
                (reachable_run _ _ _ _ _ _ Hr Hrun)) as Hk.
  unfold all_assigned in Hall.
  rewrite Hidx in Hk, Hall. rewrite <- (token_keys _ d n Hok).
  assert (default ∅ (doc_word_topic_ s' !! d) !! n = assigned s' (d, n, 0))
    as ->.
  { unfold assigned; cbn. destruct (doc_word_topic_ s' !! d); [done|].
    cbn. by rewrite lookup_empty. }
  split; [apply (Hk (d, n, 0))|].
  intros (x & E & Hx)%list_elem_of_fmap. destruct x as [[d' n'] w].
  cbn in E. injection E as -> ->. exact (Hall _ Hx).
Qed.

(** ** Topics drawn are topics *)

Lemma length_fill_weights (w d : N) (s : lda_gibbs) :
  length (fill_weights w d s) = N.to_nat (num_topics_ s).
Proof.
  unfold fill_weights.
  rewrite (fill_fold (fun j => compute_probability w d (N.of_nat j) s) []).
  cbn. by rewrite length_fmap, length_seq.
Qed.

Lemma dwt_read_default (d n w : N) (s : lda_gibbs) :
  dwt_read d n s = default 0 (assigned s (d, n, w)).
Proof.
  unfold dwt_read, assigned; cbn.
  destruct (doc_word_topic_ s !! d); [done|]. cbn. by rewrite lookup_empty.
Qed.

Section InRange.

(** The draw is an index into the weight vector, as
    [std::discrete_distribution] has it. *)
Hypothesis draw_in_range :
  forall ws r, ws <> [] ->
    (discrete_distribution ws r).1 < N.of_nat (length ws).

Lemma sample_topic_in_range (w d : N) (s : lda_gibbs) :
  1 <= num_topics_ s -> (sample_topic w d s).1 < num_topics_ s.
Proof using draw_in_range.
  intros HK. unfold sample_topic.
  pose proof (draw_in_range (fill_weights w d s) (rng_ s)) as H.
  pose proof (length_fill_weights w d s) as Hlen.
  destruct (discrete_distribution (fill_weights w d s) (rng_ s)) as [t r].
  cbn in *. rewrite Hlen in H. rewrite N2Nat.id in H. apply H.
  intros E. rewrite E in Hlen. cbn in Hlen. lia.
Qed.

Lemma token_step_valid (init : bool) (x : token) (s s' : lda_gibbs) :
  (forall d n, dwt_read d n s < num_topics_ s) ->
  token_step init x s = Some s' ->
  forall d n, dwt_read d n s' < num_topics_ s'.
Proof using draw_in_range.
  intros Hv Hs. destruct x as [[d0 n0] w].
  assert (1 <= num_topics_ s) as HK by (specialize (Hv 0 0); lia).
  pose proof (token_step_config _ _ _ _ Hs) as (_ & HK' & _).
  assert (exists new, new < num_topics_ s
            /\ forall y, assigned s' y
                 = if decide (y.1 = (d0, n0)) then Some new else assigned s y)
    as (new & Hnew & Ha).
  { destruct init; cbn in Hs.
    - unfold assign_token in Hs.
      pose proof (sample_topic_in_range w d0 s HK) as Hr.
      pose proof (sample_topic_state w d0 s) as E.
      destruct (sample_topic w d0 s) as [new s2]. cbn in Hr, E.
      injection Hs as <-. exists new. split; [done|]. intros y.
      rewrite E. apply assigned_after_step.
    - unfold resample_token in Hs.
      destruct (decrease_counts _ w d0 s) as [s1|] eqn:Hd; [|done].
      pose proof (decrease_counts_state _ _ _ _ _ Hd) as E1.
      assert (num_topics_ s1 = num_topics_ s) as HK1 by (by rewrite E1).
      pose proof (sample_topic_in_range w d0 s1) as Hr.
      rewrite HK1 in Hr. specialize (Hr HK).
      pose proof (sample_topic_state w d0 s1) as E.
      destruct (sample_topic w d0 s1) as [new s2]. cbn in Hr, E.
      injection Hs as <-. exists new. split; [done|]. intros y.
      rewrite E, assigned_after_step. case_decide; [done|].
      unfold assigned. by rewrite E1. }
  intros d n. rewrite HK', (dwt_read_default d n 0), Ha. cbn [fst].
  case_decide; [done|]. rewrite <- (dwt_read_default d n 0). apply Hv.
Qed.

(** X13: provided the distribution draws an index into the weight
    vector it is given, [run] keeps every entry of [doc_word_topic_] a
    topic: if all entries read (0 where none is recorded) are below
    [num_topics_] before the run, they are after it. *)
Theorem run_keeps_topics_valid (num_iters : N) (eps : float) (s : lda_gibbs)
    (st : run_status) (s' : lda_gibbs) (log : list float) :
  (forall d n, dwt_read d n s < num_topics_ s) ->
  run num_iters eps s = Some (st, s', log) ->
  forall d n, dwt_read d n s' < num_topics_ s'.
Proof using draw_in_range.
  intros Hv Hrun.
  apply (run_invariant (fun s0 => forall d n, dwt_read d n s0 < num_topics_ s0)
           (idx_ s)) in Hrun as [_ H]; try done.
  intros init x s0 s1 _ _. apply token_step_valid.
Qed.

End InRange.

(** ** The kernel reads the tables through the counts *)

Lemma count_term_stored (w t : N) (s : lda_gibbs) :
  count_term w t s = double_of_N (stored_term s w t).
Proof.
  unfold count_term, stored_term, peek2, peek.
  destruct (topic_term_count_ s !! t) as [inner|]; [|done].
  by destruct (inner !! w).
Qed.

Lemma count_doc_topic_stored (d t : N) (s : lda_gibbs) :
  count_doc_topic d t s = double_of_N (stored_doc s d t).
Proof.
  unfold count_doc_topic, stored_doc, peek2, peek.
  destruct (doc_topic_count_ s !! d) as [inner|]; [|done].
  by destruct (inner !! t).
Qed.

Lemma count_topic_stored (t : N) (s : lda_gibbs) :
  count_topic t s = double_of_N (stored_topic s t).
Proof.
  unfold count_topic, stored_topic, peek.
  by destruct (topic_count_ s !! t).
Qed.

(** X14: the weight [compute_probability(term, doc, topic)] depends on
    the topic only through its three counts (an absent key counting as
    0): two topics with equal counts for the term, for the document and
    in total get the same weight.  On a new sampler all weights of a
    (term, document) pair are therefore equal. *)
Theorem compute_probability_by_counts (w d t1 t2 : N) (s : lda_gibbs) :
  stored_term s w t1 = stored_term s w t2 ->
  stored_doc s d t1 = stored_doc s d t2 ->
  stored_topic s t1 = stored_topic s t2 ->
  compute_probability w d t1 s = compute_probability w d t2 s.
Proof.
  intros H1 H2 H3.
  unfold compute_probability, compute_term_topic_probability,
    compute_doc_topic_probability.
  by rewrite !count_term_stored, !count_doc_topic_stored, !count_topic_stored,
    H1, H2, H3.
Qed.

End Sampler.

(** * A reference instance

    A concrete engine, distribution and log-gamma, to run the sampler
    on examples: a 64-bit linear congruential engine; a discrete
    distribution in the manner of libstdc++ (the weights are divided by
    their sum and accumulated, the last cumulative probability is set
    to 1, and the draw is the position of the first cumulative
    probability that is not below a uniform variate of [0, 1)); and a
    Stirling-series log-gamma for positive arguments. *)
Module Reference.

Definition engine : Type := N.

Definition seed (v : N) : engine := wrap64 v.

Definition next (x : engine) : engine :=
  wrap64 (6364136223846793005 * x + 1442695040888963407).

(** The 53 high bits of the state, scaled to [0, 1). *)
Definition canonical (x : engine) : float :=
  (double_of_N (x / 2048) / 9007199254740992)%float.

(** Cumulative sums of [ws] from [acc]; the last one is replaced by 1. *)
Fixpoint cumulative (acc : float) (ws : list float) : list float :=
  match ws with
  | [] => []
  | [w] => [1%float]
  | w :: ws' => let acc' := (acc + w)%float in acc' :: cumulative acc' ws'
  end.

(** Position of the first element of [cp] that is not less than [p]. *)
Fixpoint lower_bound (p : float) (i : N) (cp : list float) : N :=
  match cp with
  | [] => i
  | c :: cp' => if (c <? p)%float then lower_bound p (i + 1) cp' else i
  end.

Definition draw (ws : list float) (x : engine) : N * engine :=
  match ws with
  | [] | [_] => (0, x)
  | _ =>
      let total := fold_left PrimFloat.add ws 0%float in
      let cp := cumulative 0 ((fun w => (w / total)%float) <$> ws) in
      let x' := next x in
      (lower_bound (canonical x') 0 cp, x')
  end.

(** [2 * atanh z] by its series: the logarithm of (1 + z) / (1 - z). *)
Fixpoint atanh2 (terms : nat) (z2 pow k acc : float) : float :=
  match terms with
  | O => (2 * acc)%float
  | S terms' =>
      atanh2 terms' z2 (pow * z2)%float (k + 2)%float (acc + pow / k)%float
  end.

Definition ln (x : float) : float :=
  let '(m, e) := Z.frexp x in
  let z := ((m - 1) / (m + 1))%float in
  (SF2Prim (binary_normalize prec emax e 0 false) * 0x1.62e42fefa39efp-1
   + atanh2 24 (z * z) z 1 0)%float.

(** Shift the argument up to 8 or more, collecting the product. *)
Fixpoint shift_up (fuel : nat) (x prod : float) : float * float :=
  match fuel with
  | O => (x, prod)
  | S fuel' =>
      if (x <? 8)%float then shift_up fuel' (x + 1)%float (prod * x)%float
      else (x, prod)
  end.

Definition lgamma (x : float) : float :=
  let '(y, prod) := shift_up 8 x 1%float in
  let y2 := (y * y)%float in
  ((y - 0x1p-1) * ln y - y + 0x1.d67f1c864beb5p-1
   + (1 / 12 - (1 / 360 - 1 / (1260 * y2)) / y2) / y
   - ln prod)%float.

(** Scenario A of the specification: two documents over three terms,
    doc 0 = {w0: 2, w1: 1}, doc 1 = {w1: 1, w2: 2}. *)
Definition scenario : forward_index :=
  {| docs := [0; 1];
     search_primary :=
       fun d => if d =? 0 then [(0, 2); (1, 1)]
                else if d =? 1 then [(1, 1); (2, 2)] else [];
     doc_size := fun d => if (d =? 0) || (d =? 1) then 3 else 0;
     num_docs := 2;
     num_terms := 3 |}.

(** A new sampler over [scenario]: K = 2, hyperparameters [alpha] and
    [beta], the engine seeded with [v]. *)
Definition sampler (alpha beta : float) (v : N) : lda_gibbs engine :=
  {| idx_ := scenario; num_topics_ := 2; num_words_ := 3;
     alpha_ := alpha; beta_ := beta;
     topic_term_count_ := ∅; doc_topic_count_ := ∅; topic_count_ := ∅;
     doc_word_topic_ := ∅; rng_ := seed v |}.

(** The assignments of the six occurrences of [scenario], in token
    order. *)
Definition assignments (s : lda_gibbs engine) : list N :=
  (fun x : token => dwt_read engine x.1.1 x.1.2 s) <$> occurrences scenario.

End Reference.

(** ** Examples *)

Module Examples.
Import Reference.

Abbreviation run_ref := (run engine draw lgamma).
Abbreviation new_ref := (lda_gibbs_new engine seed).

(** alpha = 0.1, beta = 0.01, convergence = 1e-6, as doubles. *)
Definition alpha_A : float := 0x1.999999999999ap-4.
Definition beta_A : float := 0x1.47ae147ae147bp-7.
Definition eps_A : float := 0x1.0c6f7a0b5ed8dp-20.


Lemma scenario_ok : index_ok scenario.
Proof.
  split.
  - apply NoDup_cons. split; [|apply NoDup_singleton].
    intros H%list_elem_of_singleton. discriminate H.
  - repeat constructor.
Qed.

Lemma sampler_new (alpha beta : float) (v : N) :
  new_ref scenario 2 alpha beta v = Some (sampler alpha beta v).
Proof. reflexivity. Qed.

Lemma sampler_fresh (alpha beta : float) (v : N) :
  fresh engine (sampler alpha beta v).
Proof. repeat split. Qed.

(** Scenario A, seed 42: the run converges after one iteration. *)
Example scenario_A_run :
  match run_ref 200 eps_A (sampler alpha_A beta_A 42) with
  | Some (st, s, log) =>
      st = Converged /\ assignments s = [1; 1; 0; 0; 0; 0] /\ length log = 2%nat
  | None => False
  end.
Proof. vm_compute. repeat split. Qed.

(** No iteration at all: initialization only, one likelihood reported. *)
Example scenario_A_no_iteration :
  match run_ref 0 eps_A (sampler alpha_A beta_A 42) with
  | Some (st, s, log) =>
      st = Exhausted /\ assignments s = [1; 1; 0; 0; 0; 0]
      /\ length log = 1%nat
  | None => False
  end.
Proof. vm_compute. repeat split. Qed.

(** A threshold no ratio can meet: the three iterations are used up. *)
Example scenario_A_exhausted :
  match run_ref 3 (-1)%float (sampler alpha_A beta_A 42) with
  | Some (st, s, log) => st = Exhausted /\ length log = 4%nat
  | None => False
  end.
Proof. vm_compute. repeat split. Qed.

(** The token order of scenario A. *)
Example scenario_A_tokens :
  occurrences scenario
  = [(0, 0, 0); (0, 1, 0); (0, 2, 1); (1, 0, 1); (1, 1, 2); (1, 2, 2)].
Proof. reflexivity. Qed.

(** Scenario A after its initialization sweep. *)
Definition initialized : lda_gibbs engine :=
  default (sampler alpha_A beta_A 42)
    (initialize engine draw (sampler alpha_A beta_A 42)).

Example initialized_assignments :
  assignments initialized = [1; 1; 0; 0; 0; 0]
  /\ total_topic_count engine initialized = 6.
Proof. by vm_compute. Qed.

Lemma initialized_idx : idx_ engine initialized = scenario.
Proof. by vm_compute. Qed.

(** C1, on scenario A after initialization. *)
Lemma perform_iteration_scenario :
  perform_iteration engine draw 1 false initialized
  = for_each (resample_token engine draw) (occurrences (idx_ engine initialized))
      initialized
  /\ forall d n w s0 s',
       sparse engine s0 -> resample_token engine draw (d, n, w) s0 = Some s' ->
       let old := dwt_read engine d n s0 in
       exists s1,
         decrease_counts engine old w d s0 = Some s1
         /\ stored_term engine s1 w old + 1 = stored_term engine s0 w old
         /\ stored_doc engine s1 d old + 1 = stored_doc engine s0 d old
         /\ stored_topic engine s1 old + 1 = stored_topic engine s0 old
         /\ let new := (sample_topic engine draw w d s1).1 in
            s' = increase_counts engine new w d
                   (dwt_assign engine d n new (sample_topic engine draw w d s1).2).
Proof.
  apply (perform_iteration_resamples engine draw 1 initialized).
  rewrite initialized_idx. exact scenario_ok.
Defined.

(** C2, on scenario A. *)
Lemma topic_count_total_scenario :
  exists s1,
    initialize engine draw (sampler alpha_A beta_A 42) = Some s1
    /\ total_topic_count engine s1 = 6
    /\ (forall (steps : list token) (s : lda_gibbs engine),
          for_each (resample_token engine draw) steps s1 = Some s ->
          total_topic_count engine s = 6)
    /\ (forall steps : list token,
          steps ⊆ occurrences scenario ->
          is_Some (for_each (resample_token engine draw) steps s1)).
Proof.
  apply (topic_count_total_after_init engine draw (sampler alpha_A beta_A 42)).
  - exact scenario_ok.
  - apply sampler_fresh.
Defined.

(** C2, counterexample: scenario A keeps the contract of the index and
    has six occurrences.  On the sampler its first run returns, the
    initialization sweep of a second run leaves the sum over topics of
    topic_count at 12; a resample step after it keeps it at 12, and so
    does the whole second run. *)
Lemma topic_count_total_second_run :
  index_ok scenario
  /\ corpus_size scenario = 6
  /\ exists st1 s1 log1 s2 s3,
       new_ref scenario 2 alpha_A beta_A 42 ≫= run_ref 200 eps_A
       = Some (st1, s1, log1)
       /\ idx_ engine s1 = scenario
       /\ initialize engine draw s1 = Some s2
       /\ total_topic_count engine s2 = 12
       /\ resample_token engine draw (0, 0, 0) s2 = Some s3
       /\ total_topic_count engine s3 = 12
       /\ exists st4 s4 log4,
            run_ref 200 eps_A s1 = Some (st4, s4, log4)
            /\ total_topic_count engine s4 = 12.
Proof.
  split; [exact scenario_ok|]. split; [reflexivity|].
  eexists _, _, _, _, _.
  split; [vm_compute; reflexivity|]. split; [reflexivity|].
  split; [vm_compute; reflexivity|]. split; [by vm_compute|].
  split; [vm_compute; reflexivity|]. split; [by vm_compute|].
  eexists _, _, _. split; [vm_compute; reflexivity|]. by vm_compute.
Qed.

(** C3, on scenario A. *)
Lemma run_terminates_scenario :
  exists s1 st s' Ls,
    spec_initialization engine draw (sampler alpha_A beta_A 42) = Some s1
    /\ run_ref 200 eps_A (sampler alpha_A beta_A 42)
       = Some (st, s', corpus_likelihood engine lgamma s1 :: Ls)
    /\ iterates engine draw lgamma eps_A (N.to_nat 200) s1
         (corpus_likelihood engine lgamma s1) st s' Ls
    /\ (200 = 0 -> st = Exhausted /\ s' = s1 /\ Ls = []).
Proof.
  apply (run_terminates engine seed draw lgamma 200 eps_A
           (sampler alpha_A beta_A 42)).
  - exact scenario_ok.
  - apply (reachable_new engine seed draw lgamma scenario 2 alpha_A beta_A 42).
    apply sampler_new.
Defined.



(** C6, on the sampler with one occurrence of term 2 of document 0
    counted under topic 1. *)
Lemma decrease_increase_identity_example :
  exists s1,
    decrease_counts engine 1 2 0
      (increase_counts engine 1 2 0 (sampler alpha_A beta_A 42)) = Some s1
    /\ increase_counts engine 1 2 0 s1
       = increase_counts engine 1 2 0 (sampler alpha_A beta_A 42).
Proof.
  apply (decrease_increase_identity engine 1 2 0
           (increase_counts engine 1 2 0 (sampler alpha_A beta_A 42)));
    vm_compute; discriminate.
Defined.

(** C7, on a new sampler: count, count again, then uncount twice. *)
Lemma sparse_after_calls_example :
  sparse engine
    (set_counts engine (sampler alpha_A beta_A 42)
       (<[1 := ∅]> ∅) (<[0 := ∅]> ∅) ∅).
Proof.
  apply (sparse_after_calls engine
           [Increase 1 2 0; Increase 1 2 0; Decrease 1 2 0; Decrease 1 2 0]
           (sampler alpha_A beta_A 42)).
  - repeat split; try apply nonzero2_empty; apply nonzero1_empty.
  - vm_compute. reflexivity.
Defined.

(** The smallest positive double. *)
Definition alpha_min : float := 0x1p-1074.

(** C8, counterexample: with alpha the smallest positive double, on
    the first occurrence of document 0 both weights round to zero, and
    [sample_topic] then returns topic 0 whatever the state of the
    engine: topic 1 is never drawn, although a draw over two equal
    weights does return it. *)
Lemma zero_weights_not_uniform :
  (0 <? alpha_min)%float = true
  /\ new_ref scenario 2 alpha_min beta_A 42 = Some (sampler alpha_min beta_A 42)
  /\ fill_weights engine 0 0 (sampler alpha_min beta_A 42)
     = [0%float; 0%float]
  /\ (forall r : engine,
        (sample_topic engine draw 0 0
           (set_rng engine (sampler alpha_min beta_A 42) r)).1 = 0)
  /\ (draw [1%float; 1%float] (seed 2)).1 = 1.
Proof.
  split; [by vm_compute|]. split; [reflexivity|]. split; [by vm_compute|].
  split; [|by vm_compute].
  intros r. unfold sample_topic.
  change (fill_weights engine 0 0
            (set_rng engine (sampler alpha_min beta_A 42) r))
    with (fill_weights engine 0 0 (sampler alpha_min beta_A 42)).
  replace (fill_weights engine 0 0 (sampler alpha_min beta_A 42))
    with [0%float; 0%float] by (by vm_compute).
  cbn [rng_ set_rng]. unfold draw.
  replace (cumulative 0 _) with [nan; 1%float] by (by vm_compute).
  cbn [lower_bound fst]. rewrite ltb_spec. reflexivity.
Qed.

(** C9, counterexample: alpha = -1 and beta = 0 are accepted. *)
Lemma nonpositive_hyperparameters_accepted :
  new_ref scenario 2 (-1)%float 0%float 42
  = Some (sampler (-1)%float 0%float 42).
Proof. reflexivity. Qed.

(** C10, on scenario A. *)
Lemma second_run_scenario :
  exists st1 s1 log1,
    run_ref 200 eps_A (sampler alpha_A beta_A 42) = Some (st1, s1, log1)
    /\ total_topic_count engine s1 = 6
    /\ initialize engine draw s1
       = for_each (assign_token engine draw) (occurrences (idx_ engine s1)) s1
    /\ (exists s2, initialize engine draw s1 = Some s2
                   /\ total_topic_count engine s2 = 2 * 6)
    /\ exists st3 s3 log3,
         run_ref 200 eps_A s1 = Some (st3, s3, log3)
         /\ total_topic_count engine s3 = 2 * 6.
Proof.
  apply (second_run_double_counts engine draw lgamma 200 200 eps_A eps_A
           (sampler alpha_A beta_A 42)).
  - exact scenario_ok.
  - apply sampler_fresh.
Defined.

End Examples.


(** ** More examples *)

Module More.
Import Reference Examples.

(** Scenario A run to the end, and what the run returned. *)
Definition finished_run : option (run_result engine) :=
  run_ref 200 eps_A (sampler alpha_A beta_A 42).

Definition finished : lda_gibbs engine :=
  match finished_run with
  | Some (_, s, _) => s
  | None => sampler alpha_A beta_A 42
  end.

Definition finished_log : list float :=
  match finished_run with
  | Some (_, _, log) => log
  | None => []
  end.

Lemma finished_run_eq :
  run_ref 200 eps_A (sampler alpha_A beta_A 42)
  = Some (Converged, finished, finished_log).
Proof. by vm_compute. Qed.

(** Three iterations with a threshold of -1. *)
Definition stubborn_run : option (run_result engine) :=
  run_ref 3 (-1)%float (sampler alpha_A beta_A 42).

Definition stubborn : lda_gibbs engine :=
  match stubborn_run with
  | Some (_, s, _) => s
  | None => sampler alpha_A beta_A 42
  end.

Definition stubborn_log : list float :=
  match stubborn_run with
  | Some (_, _, log) => log
  | None => []
  end.

Lemma stubborn_run_eq :
  run_ref 3 (-1)%float (sampler alpha_A beta_A 42)
  = Some (Exhausted, stubborn, stubborn_log).
Proof. by vm_compute. Qed.

Lemma sampler_sparse (alpha beta : float) (v : N) :
  sparse engine (sampler alpha beta v).
Proof. repeat split; try apply nonzero2_empty; apply nonzero1_empty. Qed.

Lemma initialized_sparse : sparse engine initialized.
Proof.
  destruct (initialize_settled engine draw (sampler alpha_A beta_A 42))
    as (s' & Hi & _ & _ & Hsp).
  - exact scenario_ok.
  - by destruct (fresh_initial engine _ (sampler_fresh alpha_A beta_A 42)).
  - unfold initialized. rewrite Hi. apply Hsp, sampler_sparse.
Qed.

(** X1, on scenario A after initialization. *)
Lemma decrease_counts_returns_example :
  is_Some (decrease_counts engine 1 0 0 initialized)
  <-> 1 <= stored_term engine initialized 0 1
      /\ 1 <= stored_doc engine initialized 0 1
      /\ 1 <= stored_topic engine initialized 1.
Proof.
  apply (decrease_counts_returns_iff engine 1 0 0 initialized).
  exact initialized_sparse.
Defined.

(** X3, on scenario A. *)
Lemma perform_iteration_uninitialized_example :
  perform_iteration engine draw 1 false (sampler alpha_A beta_A 42) = None.
Proof.
  apply (perform_iteration_uninitialized engine draw 1
           (sampler alpha_A beta_A 42)).
  - apply sampler_fresh.
  - discriminate.
Defined.

(** X4, on scenario A. *)
Lemma run_keeps_config_example :
  same_config engine (sampler alpha_A beta_A 42) finished.
Proof.
  apply (run_keeps_config engine draw lgamma 200 eps_A
           (sampler alpha_A beta_A 42) Converged finished finished_log).
  exact finished_run_eq.
Defined.

(** An index whose only posting has frequency 0. *)
Definition blank : forward_index :=
  {| docs := [0]; search_primary := fun _ => [(5, 0)];
     doc_size := fun _ => 0; num_docs := 1; num_terms := 6 |}.

Definition blank_sampler : lda_gibbs engine :=
  {| idx_ := blank; num_topics_ := 2; num_words_ := 6;
     alpha_ := alpha_A; beta_ := beta_A;
     topic_term_count_ := ∅; doc_topic_count_ := ∅; topic_count_ := ∅;
     doc_word_topic_ := ∅; rng_ := seed 42 |}.

(** X5, on the index without occurrences. *)
Lemma run_empty_corpus_example :
  exists st log, run_ref 200 eps_A blank_sampler = Some (st, blank_sampler, log).
Proof.
  apply (run_empty_corpus engine draw lgamma 200 eps_A blank_sampler).
  reflexivity.
Defined.

(** X6, on a new sampler: the outer keys 1 and 0 stay behind. *)
Lemma increase_decrease_round_trip_example :
  decrease_counts engine 1 2 0
    (increase_counts engine 1 2 0 (sampler alpha_A beta_A 42))
  = Some (set_counts engine (sampler alpha_A beta_A 42)
            (<[1 := default ∅ ((∅ : gmap N (gmap N N)) !! 1)]> ∅)
            (<[0 := default ∅ ((∅ : gmap N (gmap N N)) !! 0)]> ∅) ∅)
  /\ forall s',
       decrease_counts engine 1 2 0
         (increase_counts engine 1 2 0 (sampler alpha_A beta_A 42)) = Some s' ->
       (forall w' t', stored_term engine s' w' t'
                      = stored_term engine (sampler alpha_A beta_A 42) w' t')
       /\ (forall d' t', stored_doc engine s' d' t'
                         = stored_doc engine (sampler alpha_A beta_A 42) d' t')
       /\ (forall t', stored_topic engine s' t'
                      = stored_topic engine (sampler alpha_A beta_A 42) t').
Proof.
  apply (increase_decrease_round_trip engine 1 2 0 (sampler alpha_A beta_A 42)).
  apply sampler_sparse.
Defined.

(** X7, on scenario A. *)
Lemma run_iteration_count_example :
  (1 <= length finished_log <= 1 + N.to_nat 200)%nat
  /\ (Converged = Exhausted ->
      length finished_log = (1 + N.to_nat 200)%nat)
  /\ (Converged = Converged -> (2 <= length finished_log)%nat).
Proof.
  apply (run_iteration_count engine draw lgamma 200 eps_A
           (sampler alpha_A beta_A 42) Converged finished finished_log).
  exact finished_run_eq.
Defined.

(** X8, on scenario A with threshold -1. *)
Lemma run_negative_threshold_example :
  Exhausted = Exhausted /\ length stubborn_log = (1 + N.to_nat 3)%nat.
Proof.
  apply (run_negative_threshold engine draw lgamma 3 (-1)%float
           (sampler alpha_A beta_A 42) Exhausted stubborn stubborn_log).
  - reflexivity.
  - exact stubborn_run_eq.
Defined.

Lemma finished_reachable : reachable engine seed draw lgamma finished.
Proof.
  apply (reachable_run engine seed draw lgamma (sampler alpha_A beta_A 42)
           200 eps_A Converged finished finished_log).
  - apply (reachable_new engine seed draw lgamma scenario 2 alpha_A beta_A 42).
    apply sampler_new.
  - exact finished_run_eq.
Qed.

(** X9, on scenario A after its run. *)
Lemma topic_rows_example :
  row_sum 0 (topic_term_count_ engine finished) = stored_topic engine finished 0
  /\ row_sum 1 (topic_term_count_ engine finished)
     = stored_topic engine finished 1.
Proof.
  split;
    apply (topic_rows_sum_to_topic_count engine seed draw lgamma finished);
    exact finished_reachable.
Defined.

(** X10, on scenario A. *)
Lemma doc_rows_example :
  exists st s1 log,
    run_ref 200 eps_A (sampler alpha_A beta_A 42) = Some (st, s1, log)
    /\ forall d, d ∈ docs scenario ->
         row_sum d (doc_topic_count_ engine s1) = doc_size scenario d.
Proof.
  apply (doc_rows_sum_to_doc_size engine draw lgamma 200 eps_A
           (sampler alpha_A beta_A 42)).
  - exact scenario_ok.
  - apply sampler_fresh.
Defined.

(** X11, on scenario A. *)
Lemma counts_are_assignment_counts_example :
  exists st s1 log,
    run_ref 200 eps_A (sampler alpha_A beta_A 42) = Some (st, s1, log)
    /\ (forall x, x ∈ occurrences scenario -> is_Some (assigned engine s1 x))
    /\ (forall t, stored_topic engine s1 t
                  = tally (fun x => assigned engine s1 x = Some t)
                      (occurrences scenario))
    /\ (forall t w, stored_term engine s1 w t
                    = tally (fun x => assigned engine s1 x = Some t /\ x.2 = w)
                        (occurrences scenario))
    /\ (forall d t, stored_doc engine s1 d t
                    = tally (fun x => assigned engine s1 x = Some t /\ x.1.1 = d)
                        (occurrences scenario)).
Proof.
  apply (counts_are_assignment_counts engine draw lgamma 200 eps_A
           (sampler alpha_A beta_A 42)).
  - exact scenario_ok.
  - apply sampler_fresh.
Defined.

(** X12, on scenario A. *)
Lemma doc_word_topic_entries_example :
  exists st s' log,
    run_ref 200 eps_A (sampler alpha_A beta_A 42) = Some (st, s', log)
    /\ forall d n,
         is_Some (default ∅ (doc_word_topic_ engine s' !! d) !! n)
         <-> d ∈ docs scenario /\ n < doc_size scenario d.
Proof.
  apply (doc_word_topic_entries engine seed draw lgamma 200 eps_A
           (sampler alpha_A beta_A 42)).
  - exact scenario_ok.
  - apply (reachable_new engine seed draw lgamma scenario 2 alpha_A beta_A 42).
    apply sampler_new.
Defined.

(** X14, on a new sampler: topics 0 and 1 weigh the same. *)
Lemma compute_probability_by_counts_example :
  compute_probability engine 0 0 0 (sampler alpha_A beta_A 42)
  = compute_probability engine 0 0 1 (sampler alpha_A beta_A 42).
Proof.
  apply (compute_probability_by_counts engine 0 0 0 1
           (sampler alpha_A beta_A 42)); reflexivity.
Defined.

(** A distribution that always draws the first index. *)
Definition draw_first (ws : list float) (x : engine) : N * engine :=
  (0, next x).

Lemma draw_first_in_range (ws : list float) (r : engine) :
  ws <> [] -> (draw_first ws r).1 < N.of_nat (length ws).
Proof. destruct ws; [done|]. intros _. cbn. lia. Qed.

Definition first_run : option (run_result engine) :=
  run engine draw_first lgamma 3 eps_A (sampler alpha_A beta_A 42).

Definition first_finished : lda_gibbs engine :=
  match first_run with
  | Some (_, s, _) => s
  | None => sampler alpha_A beta_A 42
  end.

Definition first_log : list float :=
  match first_run with
  | Some (_, _, log) => log
  | None => []
  end.

Lemma first_run_eq :
  run engine draw_first lgamma 3 eps_A (sampler alpha_A beta_A 42)
  = Some (Converged, first_finished, first_log).
Proof. by vm_compute. Qed.

(** X13, on scenario A with the first-index distribution. *)
Lemma run_keeps_topics_valid_example :
  dwt_read engine 1 2 first_finished < num_topics_ engine first_finished.
Proof.
  apply (run_keeps_topics_valid engine draw_first lgamma draw_first_in_range
           3 eps_A (sampler alpha_A beta_A 42) Converged first_finished
           first_log).
  - intros d n. unfold dwt_read; cbn. rewrite lookup_empty. cbn.
    rewrite lookup_empty. cbn. lia.
  - exact first_run_eq.
Defined.

End More.
